(** * readerwriter: one Writer, many lock-free Readers

    A shallow embedding of [readerwriter.go].  The package is concurrent, so
    every method is cut into its atomic actions (one constructor of [Task]
    per program point) and the threads of a program are interleaved by a
    scheduler.  The memory is explicit: the generation records allocated by
    [New] and [Swap] live in a heap indexed by their address, and the
    [atomic.Pointer] of the Writer holds such an address.

    The package never looks inside a value of its type parameter [T], it
    only moves it.  Where a statement is about which value plays which
    role, equality on [T] stands for the identity of the Go value (for a
    slice or a pointer: the reference).  In the writer loop of the test
    [T] is a slice, a view of an array that [append] may write into; there
    the arrays are held in a memory next to the Writer. *)

From Stdlib Require Import ZArith Lia.
From stdpp Require Import base list.

Set Default Proof Using "Type".

(** ** The two panic messages of the package *)

Inductive message : Type :=
  | messageUsageOldReaderDetected    (* "usage of an old reader detected" *)
  | messageMultipleWritersDetected.  (* "multiple writers detected" *)

(** The names the specification gives to the two failures. *)
Definition StaleReaderUse : message := messageUsageOldReaderDetected.
Definition ConcurrentWriterMisuse : message := messageMultipleWritersDetected.

(** ** sync.Mutex and sync.RWMutex, as far as the package uses them *)

Module Mutex.
(** [true] is locked. *)
Definition t : Type := bool.

Definition TryLock (m : t) : option t := if m then None else Some true.

(** Unlocking an unlocked mutex is a fatal runtime error: [None]. *)
Definition Unlock (m : t) : option t := if m then Some false else None.
End Mutex.

Module RWMutex.
(** The writer side of a [sync.RWMutex]: [Lock] first announces the writer,
    which turns away every later reader, and then waits for the readers
    that are still inside to leave. *)
Inductive wstate : Type := WFree | WPending | WHeld.

Record t : Type := mk { readerCount : nat; writer : wstate }.

Definition zero : t := mk 0 WFree.

Definition TryRLock (m : t) : option t :=
  match writer m with
  | WFree => Some (mk (S (readerCount m)) WFree)
  | _ => None
  end.

(** [RUnlock] of a mutex that is not read-locked is a fatal error. *)
Definition RUnlock (m : t) : option t :=
  match readerCount m with
  | O => None
  | S n => Some (mk n (writer m))
  end.

(** First half of [Lock]: possible once no other writer is there. *)
Definition Lock_announce (m : t) : option t :=
  match writer m with
  | WFree => Some (mk (readerCount m) WPending)
  | _ => None
  end.

(** Second half of [Lock]: blocked while a reader is inside. *)
Definition Lock_acquire (m : t) : option t :=
  match writer m, readerCount m with
  | WPending, O => Some (mk 0 WHeld)
  | _, _ => None
  end.

Definition Unlock (m : t) : option t :=
  match writer m with
  | WHeld => Some (mk (readerCount m) WFree)
  | _ => None
  end.
End RWMutex.

Section ReaderWriter.
Context {T : Type}.

(** ** Data *)

(** [type current[T any] struct { sync.RWMutex; v T }] *)
Record current : Type := mkCurrent { rw : RWMutex.t; v : T }.

(** [type Writer[T any] struct]: the atomic pointer is an address into
    [heap], the memory holding every record allocated so far. *)
Record Writer : Type := mkWriter {
  heap : list current;
  current_ptr : nat;
  unsyncWriterCheck : Mutex.t;
  writerValue : T
}.

(** [type Reader[T any] struct { mu *sync.RWMutex; done bool; v T }];
    [Reader_mu] is the address of the record that embeds the mutex. *)
Record Reader : Type := mkReader {
  Reader_mu : nat;
  Reader_done : bool;
  Reader_v : T
}.

(** [func New[T any](reader, writer T) *Writer[T]] *)
Definition New (reader writer : T) : Writer :=
  {| heap := [mkCurrent RWMutex.zero reader];
     current_ptr := 0;
     unsyncWriterCheck := false;
     writerValue := writer |}.

(** The record the atomic pointer designates, and the published value. *)
Definition live (w : Writer) : option current := heap w !! current_ptr w.
Definition published (w : Writer) : option T := v <$> live w.

Definition set_heap (w : Writer) (h : list current) : Writer :=
  mkWriter h (current_ptr w) (unsyncWriterCheck w) (writerValue w).
Definition set_guard (w : Writer) (g : Mutex.t) : Writer :=
  mkWriter (heap w) (current_ptr w) g (writerValue w).
Definition set_writerValue (w : Writer) (x : T) : Writer :=
  mkWriter (heap w) (current_ptr w) (unsyncWriterCheck w) x.

(** ** Program points *)

(** One constructor per atomic action that is still to be done, with the
    local variables that are live there; [_ret] is the returned call. *)
Inductive Task : Type :=
  (* Writer.Get *)
  | Get_TryLock | Get_load | Get_Unlock (x : T) | Get_ret (x : T)
  (* Writer.Set *)
  | Set_TryLock (x : T) | Set_load (x : T) | Set_store (x previous : T)
  | Set_Unlock (previous : T) | Set_ret (previous : T)
  (* Writer.Swap *)
  | Swap_TryLock | Swap_publish | Swap_Lock (oldReader : nat)
  | Swap_wait (oldReader : nat) | Swap_RWUnlock (oldReader : nat)
  | Swap_absorb (oldReader : nat) | Swap_Unlock (oldReader : nat)
  | Swap_ret (oldReader : nat)
  (* Writer.Reader *)
  | Reader_Load | Reader_TryRLock (c : nat) | Reader_reload (c : nat)
  | Reader_RUnlock (c : nat) | Reader_ret (r : Reader)
  (* a panic of the package, a fatal error of the runtime *)
  | Panicked (m : message) | Crashed.

(** The entry points of the four methods of [Writer]. *)
Definition Writer_Get : Task := Get_TryLock.
Definition Writer_Set (x : T) : Task := Set_TryLock x.
Definition Writer_Swap : Task := Swap_TryLock.
Definition Writer_Reader : Task := Reader_Load.

Definition is_entry (t : Task) : bool :=
  match t with
  | Get_TryLock | Set_TryLock _ | Swap_TryLock | Reader_Load => true
  | _ => false
  end.

Definition final (t : Task) : bool :=
  match t with
  | Get_ret _ | Set_ret _ | Swap_ret _ | Reader_ret _ | Panicked _ | Crashed => true
  | _ => false
  end.

(** ** Atomic actions *)

(** [if !w.unsyncWriterCheck.TryLock() { panic(...) }] *)
Definition guard_enter (w : Writer) (next : Task) : Writer * Task :=
  match Mutex.TryLock (unsyncWriterCheck w) with
  | Some g => (set_guard w g, next)
  | None => (w, Panicked messageMultipleWritersDetected)
  end.

(** [defer w.unsyncWriterCheck.Unlock()] *)
Definition guard_leave (w : Writer) (next : Task) : Writer * Task :=
  match Mutex.Unlock (unsyncWriterCheck w) with
  | Some g => (set_guard w g, next)
  | None => (w, Crashed)
  end.

(** An operation of the [RWMutex] of record [c]: [inl] is the record
    missing (a wild pointer), [inr None] the operation failing. *)
Definition on_rw (w : Writer) (c : nat) (op : RWMutex.t → option RWMutex.t)
  : unit + option Writer :=
  match heap w !! c with
  | None => inl tt
  | Some rec =>
      inr (m ← op (rw rec); Some (set_heap w (<[c := mkCurrent m (v rec)]> (heap w))))
  end.

(** One atomic action of one thread.  [None]: the thread cannot move, it
    is blocked in [Lock] or its call is over. *)
Definition step_task (w : Writer) (t : Task) : option (Writer * Task) :=
  match t with
  | Get_TryLock => Some (guard_enter w Get_load)
  | Get_load => Some (w, Get_Unlock (writerValue w))
  | Get_Unlock x => Some (guard_leave w (Get_ret x))
  | Set_TryLock x => Some (guard_enter w (Set_load x))
  | Set_load x => Some (w, Set_store x (writerValue w))
  | Set_store x previous => Some (set_writerValue w x, Set_Unlock previous)
  | Set_Unlock previous => Some (guard_leave w (Set_ret previous))
  | Swap_TryLock => Some (guard_enter w Swap_publish)
  | Swap_publish =>
      (* oldReader := w.current.Swap(&current[T]{v: w.writerValue}) *)
      Some (mkWriter (heap w ++ [mkCurrent RWMutex.zero (writerValue w)])
              (length (heap w)) (unsyncWriterCheck w) (writerValue w),
            Swap_Lock (current_ptr w))
  | Swap_Lock o =>
      match on_rw w o RWMutex.Lock_announce with
      | inl _ => Some (w, Crashed)
      | inr (Some w') => Some (w', Swap_wait o)
      | inr None => None
      end
  | Swap_wait o =>
      match on_rw w o RWMutex.Lock_acquire with
      | inl _ => Some (w, Crashed)
      | inr (Some w') => Some (w', Swap_RWUnlock o)
      | inr None => None
      end
  | Swap_RWUnlock o =>
      match on_rw w o RWMutex.Unlock with
      | inr (Some w') => Some (w', Swap_absorb o)
      | _ => Some (w, Crashed)
      end
  | Swap_absorb o =>
      match heap w !! o with
      | Some rec => Some (set_writerValue w (v rec), Swap_Unlock o)
      | None => Some (w, Crashed)
      end
  | Swap_Unlock o => Some (guard_leave w (Swap_ret o))
  | Reader_Load => Some (w, Reader_TryRLock (current_ptr w))
  | Reader_TryRLock c =>
      match on_rw w c RWMutex.TryRLock with
      | inl _ => Some (w, Crashed)
      | inr (Some w') => Some (w', Reader_reload c)
      | inr None => Some (w, Reader_Load)           (* continue *)
      end
  | Reader_reload c =>
      if decide (c = current_ptr w) then
        match heap w !! c with
        | Some rec => Some (w, Reader_ret (mkReader c false (v rec)))
        | None => Some (w, Crashed)
        end
      else Some (w, Reader_RUnlock c)
  | Reader_RUnlock c =>
      match on_rw w c RWMutex.RUnlock with
      | inr (Some w') => Some (w', Reader_Load)     (* continue *)
      | _ => Some (w, Crashed)
      end
  | Get_ret _ | Set_ret _ | Swap_ret _ | Reader_ret _ | Panicked _ | Crashed => None
  end.

(** ** The methods of a Reader *)

Inductive result (A : Type) : Type :=
  | Ok (a : A) | Panic (m : message) | Fatal.
Global Arguments Ok {A} a.
Global Arguments Panic {A} m.
Global Arguments Fatal {A}.

(** [func (r *Reader[T]) Get() T]; the memory and the handle are threaded
    through to make visible that they come back as they were. *)
Definition Reader_Get (w : Writer) (r : Reader) : Writer * Reader * result T :=
  if Reader_done r then (w, r, Panic messageUsageOldReaderDetected)
  else (w, r, Ok (Reader_v r)).

(** [func (r *Reader[T]) Done()] *)
Definition Reader_Done (w : Writer) (r : Reader) : Writer * Reader * result unit :=
  if Reader_done r then (w, r, Panic messageUsageOldReaderDetected)
  else
    let r' := mkReader (Reader_mu r) true (Reader_v r) in
    match on_rw w (Reader_mu r) RWMutex.RUnlock with
    | inr (Some w') => (w', r', Ok tt)
    | _ => (w, r', Fatal)
    end.

(** ** One thread alone: a call run to its end *)

Fixpoint run (fuel : nat) (w : Writer) (t : Task) : option (Writer * Task) :=
  if final t then Some (w, t)
  else match fuel with
       | O => None
       | S fuel' =>
           match step_task w t with
           | Some (w', t') => run fuel' w' t'
           | None => None
           end
       end.

(** ** Many threads *)

(** What the scheduler or a client thread does next: start a call of
    [Get], [Set], [Swap] or [Reader] in a new thread, let thread [i] do
    its next atomic action, or have the thread that holds a Reader call
    [Get] or [Done] on it. *)
Inductive Action : Type :=
  | Spawn (t : Task) | Step (i : nat) | CallGet (i : nat) | CallDone (i : nat).

Definition after_call {A : Type} (r : Reader) (res : result A) : Task :=
  match res with
  | Ok _ => Reader_ret r
  | Panic m => Panicked m
  | Fatal => Crashed
  end.

Definition Config : Type := Writer * list Task.

Definition do_action (a : Action) (c : Config) : option Config :=
  let '(w, ts) := c in
  match a with
  | Spawn t => if is_entry t then Some (w, ts ++ [t]) else None
  | Step i =>
      match ts !! i with
      | Some t =>
          match step_task w t with
          | Some (w', t') => Some (w', <[i := t']> ts)
          | None => None
          end
      | None => None
      end
  | CallGet i =>
      match ts !! i with
      | Some (Reader_ret r) =>
          let '(w', r', res) := Reader_Get w r in
          Some (w', <[i := after_call r' res]> ts)
      | _ => None
      end
  | CallDone i =>
      match ts !! i with
      | Some (Reader_ret r) =>
          let '(w', r', res) := Reader_Done w r in
          Some (w', <[i := after_call r' res]> ts)
      | _ => None
      end
  end.

Fixpoint exec (acts : list Action) (c : Config) : option Config :=
  match acts with
  | [] => Some c
  | a :: acts' =>
      match do_action a c with
      | Some c' => exec acts' c'
      | None => None
      end
  end.

(** The configurations a program can reach from [New reader writer]. *)
Inductive reachable (reader writer : T) : Config → Prop :=
  | reach_New : reachable reader writer (New reader writer, [])
  | reach_action c a c' :
      reachable reader writer c → do_action a c = Some c' →
      reachable reader writer c'.

(** ** What the threads hold *)

(** Thread [t] holds a read lock on record [g]. *)
Definition hold (g : nat) (t : Task) : nat :=
  match t with
  | Reader_reload c | Reader_RUnlock c => if decide (c = g) then 1 else 0
  | Reader_ret r =>
      if Reader_done r then 0 else if decide (Reader_mu r = g) then 1 else 0
  | _ => 0
  end.

(** Thread [t] owns a Reader on record [g] that is not yet released. *)
Definition active_on (g : nat) (t : Task) : nat :=
  match t with
  | Reader_ret r =>
      if Reader_done r then 0 else if decide (Reader_mu r = g) then 1 else 0
  | _ => 0
  end.

(** Thread [t] is between the [TryLock] and the [Unlock] of the guard. *)
Definition critical (t : Task) : nat :=
  match t with
  | Get_load | Get_Unlock _ | Set_load _ | Set_store _ _ | Set_Unlock _
  | Swap_publish | Swap_Lock _ | Swap_wait _ | Swap_RWUnlock _
  | Swap_absorb _ | Swap_Unlock _ => 1
  | _ => 0
  end.

(** The writer side of record [g] as thread [t] has it: 1 announced,
    2 locked. *)
Definition wmark (g : nat) (t : Task) : nat :=
  match t with
  | Swap_wait o => if decide (o = g) then 1 else 0
  | Swap_RWUnlock o => if decide (o = g) then 2 else 0
  | _ => 0
  end.

Definition wcode (s : RWMutex.wstate) : nat :=
  match s with
  | RWMutex.WFree => 0
  | RWMutex.WPending => 1
  | RWMutex.WHeld => 2
  end.

(** [Swap] of thread [t] has locked record [o] or is beyond. *)
Definition drained (t : Task) : option nat :=
  match t with
  | Swap_RWUnlock o | Swap_absorb o | Swap_Unlock o | Swap_ret o => Some o
  | _ => None
  end.

(** The records a thread points to: [oldReader] and the record a Reader
    is about to give up are older than the live record, no other one is
    younger. *)
Definition refs_ok (cur : nat) (t : Task) : Prop :=
  match t with
  | Swap_Lock o | Swap_wait o | Swap_RWUnlock o | Swap_absorb o
  | Swap_Unlock o | Swap_ret o => o < cur
  | Reader_RUnlock c => c < cur
  | Reader_TryRLock c | Reader_reload c => c ≤ cur
  | Reader_ret r => Reader_mu r ≤ cur
  | _ => True
  end.

(** The snapshot of a Reader is the value of its record. *)
Definition snapshot_ok (h : list current) (t : Task) : Prop :=
  match t with
  | Reader_ret r => v <$> h !! Reader_mu r = Some (Reader_v r)
  | _ => True
  end.

Record Inv (c : Config) : Prop := mkInv {
  inv_live : current_ptr c.1 + 1 = length (heap c.1);
  inv_refs : Forall (refs_ok (current_ptr c.1)) c.2;
  inv_readers : ∀ g rec, heap c.1 !! g = Some rec →
    RWMutex.readerCount (rw rec) = sum_list_with (hold g) c.2;
  inv_writer : ∀ g rec, heap c.1 !! g = Some rec →
    wcode (RWMutex.writer (rw rec)) = sum_list_with (wmark g) c.2;
  inv_guard :
    sum_list_with critical c.2 = if unsyncWriterCheck c.1 then 1 else 0;
  inv_drained : ∀ t o, t ∈ c.2 → drained t = Some o →
    sum_list_with (active_on o) c.2 = 0;
  inv_snapshot : Forall (snapshot_ok (heap c.1)) c.2
}.

End ReaderWriter.

Global Arguments current : clear implicits.
Global Arguments Writer : clear implicits.
Global Arguments Reader : clear implicits.
Global Arguments Task : clear implicits.
Global Arguments Action : clear implicits.
Global Arguments Config : clear implicits.

(** * What the claims speak of *)

Section Derived.
Context {T : Type}.
Implicit Types (w : Writer T) (t : Task T) (ts : list (Task T)) (x : T).

(** ** A Writer at rest *)

(** No writer call is going on, and nobody reads or locks the live record. *)
Definition quiet w : Prop :=
  unsyncWriterCheck w = false ∧
  ∃ rec, live w = Some rec ∧ rw rec = RWMutex.zero.

(** The Writer after a [Swap] that nothing held up. *)
Definition swapped w (old : T) : Writer T :=
  {| heap := heap w ++ [mkCurrent RWMutex.zero (writerValue w)];
     current_ptr := length (heap w);
     unsyncWriterCheck := false;
     writerValue := old |}.

(** The Writer after a [Reader] call that met no [Swap]: one more read
    lock on the live record. *)
Definition rlocked w (rec : current T) : Writer T :=
  set_heap w (<[current_ptr w :=
    mkCurrent (RWMutex.mk (S (RWMutex.readerCount (rw rec))) RWMutex.WFree) (v rec)]>
    (heap w)).

(** ** Calls one after the other *)

(** A call alone: no method needs more than eight atomic actions. *)
Definition call w t : option (Writer T * Task T) := run 8 w t.

(** [n] calls of [Get] on one Reader. *)
Fixpoint Gets (n : nat) w (r : Reader T) : Writer T * Reader T * list (result T) :=
  match n with
  | O => (w, r, [])
  | S n' =>
      let '(w1, r1, res) := Reader_Get w r in
      let '(w2, r2, rs) := Gets n' w1 r1 in
      (w2, r2, res :: rs)
  end.

(** The first action of [Get], [Set] and [Swap]. *)
Definition writer_entry t : bool :=
  match t with
  | Get_TryLock | Set_TryLock _ | Swap_TryLock => true
  | _ => false
  end.

(** ** The two roles of a value *)

(** The writer-side value is not the published one. *)
Definition disjoint w : Prop := published w ≠ Some (writerValue w).

(** ** The loop of [Reader()] *)

Definition in_Reader t : bool :=
  match t with
  | Reader_Load | Reader_TryRLock _ | Reader_reload _ | Reader_RUnlock _ => true
  | _ => false
  end.

(** The thread is inside a call of [Swap] that has not returned. *)
Definition in_Swap t : bool :=
  match t with
  | Swap_TryLock | Swap_publish | Swap_Lock _ | Swap_wait _ | Swap_RWUnlock _
  | Swap_absorb _ | Swap_Unlock _ => true
  | _ => false
  end.

(** C9 as the specification has it: a thread goes back to the load of
    [Reader()] only while some thread is inside [Swap]. *)
Definition retries_only_during_Swap (r0 w0 : T) : Prop :=
  ∀ w ts i t w',
    reachable r0 w0 (w, ts) → ts !! i = Some t → in_Reader t = true →
    step_task w t = Some (w', Reader_Load) →
    ∃ j u, ts !! j = Some u ∧ in_Swap u = true.

(** The iteration of thread [t] can no longer succeed: the record it
    loaded is not the live one [cur] any more. *)
Definition stale (cur : nat) t : nat :=
  match t with
  | Reader_TryRLock c | Reader_reload c => if decide (c = cur) then 0 else 1
  | Reader_RUnlock _ => 1
  | _ => 0
  end.

(** The atomic actions a [Reader()] call needs at most when no other
    thread moves. *)
Definition rank (cur : nat) t : nat :=
  match t with
  | Reader_Load => 3
  | Reader_TryRLock c => if decide (c = cur) then 2 else 6
  | Reader_reload c => if decide (c = cur) then 1 else 5
  | Reader_RUnlock _ => 4
  | _ => 0
  end.

Definition goes_back t : nat :=
  match t with Reader_Load => 1 | _ => 0 end.

(** Along a schedule: how often thread [i] goes back to the load, and how
    often a [Swap] publishes a record. *)
Definition retried (i : nat) (a : Action T) (c1 : Config T) : nat :=
  match a with
  | Step j =>
      if decide (j = i) then
        match c1.2 !! i with Some Reader_Load => 1 | _ => 0 end
      else 0
  | _ => 0
  end.

Definition publishes (a : Action T) (c : Config T) : nat :=
  match a with
  | Step j => match c.2 !! j with Some Swap_publish => 1 | _ => 0 end
  | _ => 0
  end.

Fixpoint tally (i : nat) (acts : list (Action T)) (c : Config T)
  : option (Config T * nat * nat) :=
  match acts with
  | [] => Some (c, 0, 0)
  | a :: acts' =>
      match do_action a c with
      | Some c1 =>
          match tally i acts' c1 with
          | Some (c', n, p) => Some (c', retried i a c1 + n, publishes a c + p)
          | None => None
          end
      | None => None
      end
  end.

End Derived.

(** ** Schedules used as examples *)

(** One thread has just called [Reader()]. *)
Definition sched_call_Reader : list (Action nat) := [Spawn Writer_Reader].

(** One thread called [Reader()] and has its Reader. *)
Definition sched_reader : list (Action nat) :=
  [Spawn Writer_Reader; Step 0; Step 0; Step 0].

(** One thread is inside [Get], a second one enters [Set(5)]. *)
Definition sched_two_writers : list (Action nat) :=
  [Spawn Writer_Get; Step 0; Spawn (Writer_Set 5)].

(** One thread has locked the live record and is about to reload. *)
Definition sched_reload : list (Action nat) :=
  [Spawn Writer_Reader; Step 0; Step 0].

(** One thread has a Reader, a second one is in [Swap], waiting. *)
Definition sched_swap_waits : list (Action nat) :=
  sched_reader ++ [Spawn Writer_Swap; Step 1; Step 1; Step 1].

(** A thread loads the live record, [Swap] runs from start to end in
    another thread, then the first thread locks and reloads. *)
Definition sched_late_retry : list (Action nat) :=
  [Spawn Writer_Reader; Step 0; Spawn Writer_Swap;
   Step 1; Step 1; Step 1; Step 1; Step 1; Step 1; Step 1;
   Step 0; Step 0].

(** The configuration a schedule leads to from [New 0 1]. *)
Definition after (acts : list (Action nat)) : Config nat :=
  default (New 0 1, []) (exec acts (New 0 1, [])).

(** ** More to speak of *)

Section MoreDefinitions.
Context {T : Type}.
Implicit Types (w : Writer T) (t : Task T).

(** The record [oldReader] of a thread inside or after [Swap]. *)
Definition swap_old t : option nat :=
  match t with
  | Swap_Lock o | Swap_wait o | Swap_RWUnlock o | Swap_absorb o
  | Swap_Unlock o | Swap_ret o => Some o
  | _ => None
  end.

(** Every record that was replaced has the thread whose [Swap] replaced
    it. *)
Definition replaced_known (c : Config T) : Prop :=
  ∀ g, g < current_ptr c.1 → ∃ j u, c.2 !! j = Some u ∧ swap_old u = Some g.

(** [n] calls of [Swap], one after the other. *)
Fixpoint Swaps (n : nat) w : option (Writer T) :=
  match n with
  | O => Some w
  | S n' =>
      match call w Writer_Swap with
      | Some (w', Swap_ret _) => Swaps n' w'
      | _ => None
      end
  end.

End MoreDefinitions.

(** The writes of [TestReaderWriter]: round [i] appends [int64(i)]. *)
Definition test_writes (n : nat) : list (list Z) :=
  (λ i, [Z.of_nat i]) <$> seq 0 n.

(** One thread is inside [Swap] and has published, nobody reads. *)
Definition sched_swap_alone : list (Action nat) :=
  [Spawn Writer_Swap; Step 0; Step 0].

(** ** Schedules that keep to a rule *)

Section Rules.
Context {T : Type}.
Implicit Types (w : Writer T) (t : Task T).

(** A rule tells which action may be taken in which configuration. *)
Definition rule : Type := Action T → Config T → Prop.

(** Every action of the schedule [acts], run from [c], is one the rule
    allows. *)
Fixpoint keeps (allowed : rule) (acts : list (Action T)) (c : Config T) : Prop :=
  match acts with
  | [] => True
  | a :: acts' =>
      allowed a c ∧
      match do_action a c with
      | Some c' => keeps allowed acts' c'
      | None => False
      end
  end.

(** Action [a] leaves the writer role to thread [i]: of the other threads
    only those inside [Reader()] move; calls may be started, and Readers
    used. *)
Definition sole (i : nat) (a : Action T) (c : Config T) : bool :=
  match a with
  | Step j =>
      if decide (j = i) then true
      else match c.2 !! j with Some u => in_Reader u | None => false end
  | _ => true
  end.

Definition sole_writer (i : nat) : rule := λ a c, sole i a c = true.

(** Where a call stands that started with [x] writer-side and [p]
    published ([y] is the argument when the call is [Set(y)]). *)
Definition phase (x p y : T) t w : Prop :=
  match t with
  | Get_TryLock | Get_load => writerValue w = x ∧ published w = Some p
  | Get_Unlock z | Get_ret z =>
      z = x ∧ writerValue w = x ∧ published w = Some p
  | Set_TryLock z | Set_load z =>
      z = y ∧ writerValue w = x ∧ published w = Some p
  | Set_store z previous =>
      z = y ∧ previous = x ∧ writerValue w = x ∧ published w = Some p
  | Set_Unlock previous | Set_ret previous =>
      previous = x ∧ writerValue w = y ∧ published w = Some p
  | Swap_TryLock | Swap_publish => writerValue w = x ∧ published w = Some p
  | Swap_Lock o | Swap_wait o | Swap_RWUnlock o | Swap_absorb o =>
      writerValue w = x ∧ published w = Some x ∧ v <$> heap w !! o = Some p
  | Swap_Unlock o | Swap_ret o =>
      writerValue w = p ∧ published w = Some x
  | Reader_Load | Reader_TryRLock _ | Reader_reload _ | Reader_RUnlock _ =>
      writerValue w = x ∧ published w = Some p
  | Reader_ret r =>
      Reader_v r = p ∧ writerValue w = x ∧ published w = Some p
  | Panicked _ | Crashed => True
  end.

(** Nothing of what the values are changes from [w] to [w']. *)
Definition same_values w w' : Prop :=
  writerValue w' = writerValue w ∧ current_ptr w' = current_ptr w ∧
  ∀ g, v <$> heap w' !! g = v <$> heap w !! g.

End Rules.

Global Arguments rule : clear implicits.

(** The configuration a schedule leads to from [c]. *)
Definition then_do {T : Type} (c : Config T) (acts : list (Action T)) : Config T :=
  default c (exec acts c).




(** ** Before the first [Swap] *)

Section BeforeSwapDefinitions.
Context {T : Type}.
Implicit Types (w : Writer T) (t : Task T).

(** The rule that only calls which [ok] admits are started. *)
Definition calls (ok : Task T → bool) : rule T := λ a _,
  match a with
  | Spawn t => ok t = true
  | _ => True
  end.

(** Not a program point of [Swap], nor its return. *)
Definition not_Swap t : bool :=
  match t with
  | Swap_TryLock | Swap_publish | Swap_Lock _ | Swap_wait _ | Swap_RWUnlock _
  | Swap_absorb _ | Swap_Unlock _ | Swap_ret _ => false
  | _ => true
  end.

(** Neither of [Swap] nor of [Set]. *)
Definition not_Set_nor_Swap t : bool :=
  match t with
  | Set_TryLock _ | Set_load _ | Set_store _ _ | Set_Unlock _ | Set_ret _ => false
  | _ => not_Swap t
  end.

(** The value a [Get] has read, if the thread is past that. *)
Definition got t : option T :=
  match t with
  | Get_Unlock z | Get_ret z => Some z
  | _ => None
  end.

End BeforeSwapDefinitions.

(** A thread gets a Reader, [Get] is called and returns, [Set(5)] is
    called. *)
Definition sched_before_Swap : list (Action nat) :=
  [Spawn Writer_Reader; Step 0; Step 0; Step 0;
   Spawn Writer_Get; Step 1; Step 1; Step 1; Spawn (Writer_Set 5)].

(** [Set(5)] runs, the Reader is read meanwhile; [Get] is called. *)
Definition sched_Set_5 : list (Action nat) :=
  [Step 2; Step 2; CallGet 0; Step 2; Step 2; Spawn Writer_Get].

Definition sched_Get_5 : list (Action nat) := [Step 3; Step 3; Step 3].

(** ** Careful callers, and the exchange inside [Swap] *)

Section RolesDefinitions.
Context {T : Type}.
Implicit Types (w : Writer T) (t : Task T).

(** The caller never hands [Set] the value that is published at the
    moment [Set] stores it. *)
Definition careful : rule T := λ a c,
  match a with
  | Step j =>
      match c.2 !! j with
      | Some (Set_store x _) => published c.1 ≠ Some x
      | _ => True
      end
  | _ => True
  end.

(** The thread is inside [Swap], between the publication and the last
    assignment: [oldReader] if so. *)
Definition exchanging t : option nat :=
  match t with
  | Swap_Lock o | Swap_wait o | Swap_RWUnlock o | Swap_absorb o => Some o
  | _ => None
  end.

(** The roles in configuration [c]: outside the exchange of a [Swap] the
    writer-side value is not the published one; inside, it is, and the
    value of the replaced record is another one. *)
Definition roles (c : Config T) : Prop :=
  ((∀ i t, c.2 !! i = Some t → exchanging t = None) → disjoint c.1) ∧
  (∀ i t o, c.2 !! i = Some t → exchanging t = Some o →
     published c.1 = Some (writerValue c.1) ∧
     ∃ q, v <$> heap c.1 !! o = Some q ∧ q ≠ writerValue c.1).

(** What action [a] does to the two values, from [c] to [c']: nothing, or
    it is the publication of a [Swap], the store of a [Set], or the last
    assignment of a [Swap]. *)
Definition moves (a : Action T) (c c' : Config T) : Prop :=
  same_values c.1 c'.1 ∨
  ∃ j, a = Step j ∧
    ((c.2 !! j = Some Swap_publish ∧
      c'.2 !! j = Some (Swap_Lock (current_ptr c.1)) ∧
      published c'.1 = Some (writerValue c.1) ∧
      writerValue c'.1 = writerValue c.1 ∧
      v <$> heap c'.1 !! current_ptr c.1 = published c.1) ∨
     (∃ x previous, c.2 !! j = Some (Set_store x previous) ∧
        writerValue c'.1 = x ∧ published c'.1 = published c.1) ∨
     (∃ o, c.2 !! j = Some (Swap_absorb o) ∧
        v <$> heap c.1 !! o = Some (writerValue c'.1) ∧
        published c'.1 = published c.1)).

End RolesDefinitions.

(** A thread holds a Reader, [Get] has returned, [Set(5)] is about to
    store. *)
Definition sched_roles : list (Action nat) :=
  [Spawn Writer_Reader; Step 0; Step 0; Step 0;
   Spawn Writer_Get; Step 1; Step 1; Step 1;
   Spawn (Writer_Set 5); Step 2; Step 2; Step 2].

(** [Set(0)] on [New 0 1]: the published value is stored writer-side. *)
Definition sched_Set_published : list (Action nat) :=
  [Spawn (Writer_Set 0); Step 0; Step 0; Step 0; Step 0].

Section AbsorbedDefinition.
Context {T : Type}.

(** A [Swap] that only has its [Unlock] left has made the value of the
    record it replaced the writer-side one. *)
Definition absorbed (c : Config T) : Prop :=
  ∀ i o, c.2 !! i = Some (Swap_Unlock o) →
    v <$> heap c.1 !! o = Some (writerValue c.1).

End AbsorbedDefinition.

(** One thread is inside [Swap] with only its [Unlock] left. *)
Definition sched_swap_Unlock : list (Action nat) :=
  [Spawn Writer_Swap; Step 0; Step 0; Step 0; Step 0; Step 0; Step 0].

(** ** Slices, and the writer loop of the test *)

(** The test instantiates [T] with [[]int64].  A Go slice is a view of an
    array: the array, the offset of the first element in it, the length,
    and the capacity (the room from the offset on).  Two slices may view
    the same array, and [append] writes into the array when the capacity
    allows, so the arrays are kept in a memory of their own. *)
Record slice : Type := mkSlice {
  s_arr : nat; s_off : nat; s_len : nat; s_cap : nat
}.

(** [s[:0]]: no element, the same room. *)
Definition reslice0 (s : slice) : slice :=
  mkSlice (s_arr s) (s_off s) 0 (s_cap s).

(** The rooms of [s] and [t] do not overlap. *)
Definition separate (s t : slice) : Prop :=
  s_arr s ≠ s_arr t ∨ s_off s + s_cap s ≤ s_off t ∨ s_off t + s_cap t ≤ s_off s.

Section SlicesDef.
Context {A : Type}.

(** [zero] is the zero value of the element type.  [grow c n] is the
    capacity [append] gives the array it allocates when a slice of
    capacity [c] has to hold [n] elements; the language only promises
    that it suffices.  The memory [m] holds the arrays, by address. *)
Variable zero : A.
Variable grow : nat → nat → nat.

(** The elements of a slice. *)
Definition elems (m : list (list A)) (s : slice) : list A :=
  take (s_len s) (drop (s_off s) (default [] (m !! s_arr s))).

(** The slice lies within its array. *)
Definition wf (m : list (list A)) (s : slice) : Prop :=
  ∃ a, m !! s_arr s = Some a ∧ s_off s + s_cap s ≤ length a ∧ s_len s ≤ s_cap s.

(** [append(s, xs...)]: in place behind the elements of [s] when its
    capacity allows, into a new array otherwise. *)
Definition append (m : list (list A)) (s : slice) (xs : list A) : list (list A) * slice :=
  let n := s_len s + length xs in
  if decide (n ≤ s_cap s) then
    (<[s_arr s := list_inserts (s_off s + s_len s) xs (default [] (m !! s_arr s))]> m,
     mkSlice (s_arr s) (s_off s) n (s_cap s))
  else
    (m ++ [elems m s ++ xs ++ replicate (grow (s_cap s) n - n) zero],
     mkSlice (length m) 0 n (grow (s_cap s) n)).

Implicit Types (mw : list (list A) * Writer slice) (xs : list A).

(** One write: [w.Set(append(w.Get(), x))]. *)
Definition write_one (x : A) mw : option (list (list A) * Writer slice) :=
  match call mw.2 Writer_Get with
  | Some (w1, Get_ret mine) =>
      let ms := append mw.1 mine [x] in
      match call w1 (Writer_Set ms.2) with
      | Some (w2, Set_ret _) => Some (ms.1, w2)
      | _ => None
      end
  | _ => None
  end.

Fixpoint accumulate xs mw : option (list (list A) * Writer slice) :=
  match xs with
  | [] => Some mw
  | x :: xs' =>
      match write_one x mw with
      | Some mw' => accumulate xs' mw'
      | None => None
      end
  end.

(** One round: the writes, then
    [w.Swap(); r := w.Reader(); w.Set(append(w.Get()[:0], r.Get()...)); r.Done()]. *)
Definition round xs mw : option (list (list A) * Writer slice) :=
  match accumulate xs mw with
  | Some (m1, w1) =>
      match call w1 Writer_Swap with
      | Some (w2, Swap_ret _) =>
          match call w2 Writer_Reader with
          | Some (w3, Reader_ret r) =>
              match call w3 Writer_Get with
              | Some (w4, Get_ret mine) =>
                  match Reader_Get w4 r with
                  | (w5, r5, Ok seen) =>
                      let ms := append m1 (reslice0 mine) (elems m1 seen) in
                      match call w5 (Writer_Set ms.2) with
                      | Some (w6, Set_ret _) =>
                          match Reader_Done w6 r5 with
                          | (w7, _, Ok _) => Some (ms.1, w7)
                          | _ => None
                          end
                      | _ => None
                      end
                  | _ => None
                  end
              | _ => None
              end
          | _ => None
          end
      | _ => None
      end
  | None => None
  end.

Fixpoint rounds (xss : list (list A)) mw : option (list (list A) * Writer slice) :=
  match xss with
  | [] => Some mw
  | xs :: xss' =>
      match round xs mw with
      | Some mw' => rounds xss' mw'
      | None => None
      end
  end.

(** C6 as the specification has it, for the rounds [xss] after
    [New(r0, w0)] in memory [m]: the rounds end, and the published slice
    then holds the elements of [w0] followed by all the writes. *)
Definition keeps_writes (m : list (list A)) (r0 w0 : slice) (xss : list (list A)) : Prop :=
  ∃ m' w' p,
    rounds xss (m, New r0 w0) = Some (m', w') ∧
    published w' = Some p ∧
    elems m' p = elems m w0 ++ concat xss.

End SlicesDef.

(** What the runtime does for short slices: the capacity doubles. *)
Definition grow_double (c n : nat) : nat := Nat.max n (2 * c).

(** [New([]int64{42}, []int64{-1})]: two arrays of one element. *)
Definition test_mem : list (list Z) := [[42%Z]; [(-1)%Z]].
Definition test_reader : slice := mkSlice 0 0 1 1.
Definition test_writer : slice := mkSlice 1 0 1 1.

(** [arr := []int64{1, 2, 3, 0}; New(arr[0:2], arr[1:3])]: both parts view
    the one array. *)
Definition shared_mem : list (list Z) := [[1%Z; 2%Z; 3%Z; 0%Z]].
Definition shared_reader : slice := mkSlice 0 0 2 4.
Definition shared_writer : slice := mkSlice 0 1 2 3.

(** * The invariant of the reachable configurations *)

Section Invariant.
Context {T : Type}.
Implicit Types (w : Writer T) (t : Task T) (ts : list (Task T)).

Lemma sum_insert (f : Task T → nat) ts i t t' :
  ts !! i = Some t →
  sum_list_with f (<[i := t']> ts) + f t = sum_list_with f ts + f t'.
Proof.
  revert i; induction ts as [|a ts IH]; intros [|i] H; simpl in *; try done.
  - injection H as ->. lia.
  - specialize (IH _ H). lia.
Qed.

Lemma sum_elem (f : Task T → nat) ts t :
  t ∈ ts → f t ≤ sum_list_with f ts.
Proof.
  induction 1 as [|? ? ? _ IH]; simpl; lia.
Qed.

Lemma sum_pos (f : Task T → nat) ts :
  0 < sum_list_with f ts → ∃ t, t ∈ ts ∧ 0 < f t.
Proof.
  induction ts as [|a ts IH]; simpl; [lia|].
  intros H. destruct (decide (0 < f a)) as [Ha|Ha].
  - exists a. split; [left | done].
  - destruct IH as (t & ? & ?); [lia|]. exists t. split; [by right | done].
Qed.

Lemma active_le_hold g t : active_on g t ≤ hold g t.
Proof. destruct t; simpl; repeat case_match; lia. Qed.

Lemma sum_active_le_hold g ts :
  sum_list_with (active_on g) ts ≤ sum_list_with (hold g) ts.
Proof.
  induction ts as [|a ts IH]; simpl; [lia|].
  pose proof (active_le_hold g a). lia.
Qed.

(** No thread points to a record younger than the live one. *)
Lemma refs_fresh cur g ts :
  Forall (refs_ok cur) ts → cur < g →
  sum_list_with (hold g) ts = 0 ∧ sum_list_with (wmark g) ts = 0.
Proof.
  intros H Hg. induction H as [|t ts Ht _ [IH1 IH2]]; simpl; [done|].
  rewrite IH1, IH2. split.
  - destruct t; simpl in *; repeat case_decide; repeat case_match; lia.
  - destruct t; simpl in *; repeat case_decide; repeat case_match; lia.
Qed.

Lemma refs_ok_mono cur cur' t : cur ≤ cur' → refs_ok cur t → refs_ok cur' t.
Proof. destruct t; simpl; lia. Qed.

Lemma on_rw_Some w c op w' :
  on_rw w c op = inr (Some w') →
  ∃ rec m, heap w !! c = Some rec ∧ op (rw rec) = Some m ∧
           w' = set_heap w (<[c := mkCurrent m (v rec)]> (heap w)).
Proof.
  unfold on_rw. destruct (heap w !! c) as [rec|] eqn:E; [|done].
  destruct (op (rw rec)) as [m|] eqn:Eo; simpl; [|done].
  intros [= <-]. eauto.
Qed.

Lemma on_rw_None w c op :
  on_rw w c op = inr None →
  ∃ rec, heap w !! c = Some rec ∧ op (rw rec) = None.
Proof.
  unfold on_rw. destruct (heap w !! c) as [rec|] eqn:E; [|done].
  destruct (op (rw rec)) as [m|] eqn:Eo; simpl; [done|]. eauto.
Qed.

Lemma on_rw_inl w c op u : on_rw w c op = inl u → heap w !! c = None.
Proof. unfold on_rw. by destruct (heap w !! c). Qed.

(** An operation on a mutex leaves the values of the records alone. *)
Lemma lookup_v_insert (h : list (current T)) c rec m g :
  h !! c = Some rec →
  v <$> (<[c := mkCurrent m (v rec)]> h) !! g = v <$> h !! g.
Proof.
  intros Hc. destruct (decide (c = g)) as [->|Hne].
  - rewrite list_lookup_insert_eq by (by eapply lookup_lt_Some).
    by rewrite Hc.
  - by rewrite list_lookup_insert_ne.
Qed.

Lemma snapshot_ok_insert (h : list (current T)) c rec m t :
  h !! c = Some rec → snapshot_ok h t →
  snapshot_ok (<[c := mkCurrent m (v rec)]> h) t.
Proof.
  intros Hc. destruct t; simpl; try done. by rewrite (lookup_v_insert _ _ _ _ _ Hc).
Qed.

Lemma snapshot_ok_app (h : list (current T)) rec t :
  snapshot_ok h t → snapshot_ok (h ++ [rec]) t.
Proof.
  destruct t; simpl; try done.
  destruct (h !! Reader_mu r) as [x|] eqn:E; [|done].
  by rewrite (lookup_app_l_Some _ _ _ _ E).
Qed.

Lemma drained_refs cur t o : drained t = Some o → refs_ok cur t → o < cur.
Proof. destruct t; simpl; intros [= <-]; done. Qed.

Lemma elem_of_insert_inv ts i t' u :
  u ∈ <[i := t']> ts → u = t' ∨ u ∈ ts.
Proof.
  revert i; induction ts as [|a ts IH]; intros [|i]; simpl; auto.
  - intros [->|H]%elem_of_cons; [by left | right; by right].
  - intros [->|H]%elem_of_cons; [right; by left|].
    destruct (IH _ H) as [->|?]; [by left | right; by right].
Qed.

(** What one move of thread [i] has to respect for the invariant to
    carry over: every record either was there before, with counters that
    moved as the thread's own marks did, or is new, unlocked and unknown
    to the thread. *)
Lemma Inv_update w ts i t w' t' :
  Inv (w, ts) → ts !! i = Some t →
  current_ptr w ≤ current_ptr w' →
  current_ptr w' + 1 = length (heap w') →
  refs_ok (current_ptr w') t' →
  (∀ g rec', heap w' !! g = Some rec' →
     (∃ rec, heap w !! g = Some rec ∧
        RWMutex.readerCount (rw rec') + hold g t
          = RWMutex.readerCount (rw rec) + hold g t' ∧
        wcode (RWMutex.writer (rw rec')) + wmark g t
          = wcode (RWMutex.writer (rw rec)) + wmark g t') ∨
     (current_ptr w < g ∧ rw rec' = RWMutex.zero ∧
        hold g t = hold g t' ∧ wmark g t = wmark g t')) →
  (if unsyncWriterCheck w' then 1 else 0) + critical t
    = (if unsyncWriterCheck w then 1 else 0) + critical t' →
  (∀ g, g < current_ptr w → active_on g t' ≤ active_on g t) →
  (∀ o, drained t' = Some o → drained t = Some o ∨
     ∃ rec', heap w' !! o = Some rec' ∧ RWMutex.readerCount (rw rec') = 0) →
  (∀ u, snapshot_ok (heap w) u → snapshot_ok (heap w') u) →
  snapshot_ok (heap w') t' →
  Inv (w', <[i := t']> ts).
Proof.
  intros [Hlive Hrefs Hrd Hwr Hgd Hdr Hsn] Hi Hle Hlive' Hr' Hheap Hg Hact Hdrn Hsnap Hsn'.
  simpl in *.
  assert (Hrd' : ∀ g rec, heap w' !! g = Some rec →
    RWMutex.readerCount (rw rec) = sum_list_with (hold g) (<[i := t']> ts)).
  { intros g rec' Hg'. pose proof (sum_insert (hold g) ts i t t' Hi) as E.
    destruct (Hheap g rec' Hg') as [(rec & Hrec & E1 & _)|(Hfresh & Hz & E1 & _)].
    - specialize (Hrd g rec Hrec). lia.
    - destruct (refs_fresh _ g ts Hrefs Hfresh) as [E2 _]. rewrite Hz. simpl. lia. }
  constructor; simpl.
  - done.
  - apply Forall_insert; [|done].
    eapply Forall_impl; [exact Hrefs|]. intros u. by apply refs_ok_mono.
  - done.
  - intros g rec' Hg'. pose proof (sum_insert (wmark g) ts i t t' Hi) as E.
    destruct (Hheap g rec' Hg') as [(rec & Hrec & _ & E1)|(Hfresh & Hz & _ & E1)].
    + specialize (Hwr g rec Hrec). lia.
    + destruct (refs_fresh _ g ts Hrefs Hfresh) as [_ E2]. rewrite Hz. simpl. lia.
  - pose proof (sum_insert critical ts i t t' Hi) as E. lia.
  - assert (Hold : ∀ u o, u ∈ ts → drained u = Some o →
      sum_list_with (active_on o) (<[i := t']> ts) = 0).
    { intros u o Hu Ho. pose proof (sum_insert (active_on o) ts i t t' Hi) as E.
      specialize (Hdr u o Hu Ho).
      assert (o < current_ptr w).
      { eapply drained_refs; [exact Ho|]. by eapply (proj1 (Forall_forall _ _) Hrefs). }
      specialize (Hact o). lia. }
    intros u o Hu Ho. apply elem_of_insert_inv in Hu as [->|Hu]; [|by eapply Hold].
    destruct (Hdrn o Ho) as [Ht|(rec' & Hrec' & Hz)].
    + eapply Hold; [|exact Ht]. by eapply list_elem_of_lookup_2.
    + specialize (Hrd' o rec' Hrec').
      pose proof (sum_active_le_hold o (<[i := t']> ts)). lia.
  - apply Forall_insert; [|done].
    eapply Forall_impl; [exact Hsn|]. done.
Qed.
End Invariant.

Section Preservation.
Context {T : Type}.
Implicit Types (w : Writer T) (t : Task T) (ts : list (Task T)).

(** The heap after an operation on the mutex of record [c]. *)
Lemma rw_update_heap w c rec m g rec' :
  heap w !! c = Some rec →
  <[c := mkCurrent m (v rec)]> (heap w) !! g = Some rec' →
  (g = c ∧ rec' = mkCurrent m (v rec)) ∨ (g ≠ c ∧ heap w !! g = Some rec').
Proof.
  intros Hc [(<- & <- & _)|(Hne & Hg)]%list_lookup_insert_Some; [by left|].
  right. split; [congruence | done].
Qed.

Ltac rw_case Hst :=
  match type of Hst with
  | context [on_rw ?w ?c ?op] =>
      let E := fresh "E" in
      destruct (on_rw w c op) as [[]|[?w1|]] eqn:E;
      [ apply on_rw_inl, lookup_ge_None in E
      | apply on_rw_Some in E as (rec & m & Hrec & Hop & ->)
      | apply on_rw_None in E as (rec & Hrec & Hop) ]
  end.

Ltac rw_heap Hrec :=
  let g := fresh "g" in let rec' := fresh "rec'" in let Hg := fresh "Hg" in
  intros g rec' Hg;
  apply (rw_update_heap _ _ _ _ _ _ Hrec) in Hg as [[-> ->]|[Hne Hg]];
  left; eexists; (split; [eassumption|]); simpl;
  rewrite ?decide_True by done; rewrite ?decide_False by done;
  repeat match goal with
    | H : RWMutex.writer _ = _ |- _ => rewrite H
    | H : RWMutex.readerCount _ = S _ |- _ => rewrite H
    end;
  simpl; try lia.

Ltac rw_open Hop :=
  unfold RWMutex.TryRLock, RWMutex.RUnlock, RWMutex.Lock_announce,
    RWMutex.Lock_acquire, RWMutex.Unlock in Hop;
  repeat match type of Hop with
    | context [match ?x with _ => _ end] => destruct x eqn:?
    end;
  simplify_eq; simpl in *.

(** The counters of the record a thread works on, and the thread's own
    share in them. *)
Ltac counters Hrd Hwr Hho Hwm Hrec :=
  match type of Hrec with
  | _ !! ?c = _ =>
      specialize (Hrd _ _ Hrec); specialize (Hwr _ _ Hrec);
      specialize (Hho c); specialize (Hwm c);
      destruct (decide (c = c)) as [_|?]; [|done]
  end.

Lemma Inv_step w ts i t w' t' :
  Inv (w, ts) → ts !! i = Some t → step_task w t = Some (w', t') →
  Inv (w', <[i := t']> ts).
Proof.
  intros HI Hi Hst.
  pose proof (inv_live _ HI) as Hlive.
  pose proof (proj1 (Forall_lookup _ _) (inv_refs _ HI) i t Hi) as Hrt.
  pose proof (proj1 (Forall_lookup _ _) (inv_snapshot _ HI) i t Hi) as Hst0.
  pose proof (list_elem_of_lookup_2 _ _ _ Hi) as Hin.
  pose proof (sum_elem critical ts t Hin) as Hcr.
  pose proof (λ g, sum_elem (hold g) ts t Hin) as Hho.
  pose proof (λ g, sum_elem (wmark g) ts t Hin) as Hwm.
  pose proof (inv_guard _ HI) as Hgd.
  pose proof (inv_readers _ HI) as Hrd.
  pose proof (inv_writer _ HI) as Hwr.
  simpl in *.
  destruct t; simpl in Hst, Hrt, Hcr, Hho, Hwm;
    unfold guard_enter, guard_leave, Mutex.TryLock, Mutex.Unlock in Hst;
    try done.
  all: try match type of Hst with
       | context [unsyncWriterCheck ?x] =>
           destruct (unsyncWriterCheck x) eqn:Hguard; [|try lia]
       end.
  all: try (injection Hst as <- <-;
    apply (Inv_update w ts i _ _ _ HI Hi); simpl; rewrite ?Hguard;
      [lia | done | done
      | intros g rec' Hg'; left; exists rec'; done
      | done | done | intros o [= <-]; by left | done | done]).
  - (* Swap_publish *)
    injection Hst as <- <-.
    apply (Inv_update w ts i _ _ _ HI Hi); simpl; rewrite ?Hguard.
    + lia.
    + rewrite length_app. simpl. lia.
    + lia.
    + intros g rec' [[? Hg]|[-> <-]]%lookup_snoc_Some.
      * left. exists rec'. done.
      * right. split; [lia | done].
    + done.
    + done.
    + done.
    + intros u. apply snapshot_ok_app.
    + done.
  - (* Swap_Lock *)
    rw_case Hst; [lia| |done]. injection Hst as <- <-.
    counters Hrd Hwr Hho Hwm Hrec. rw_open Hop.
    apply (Inv_update w ts i _ _ _ HI Hi); simpl.
    + lia.
    + by rewrite length_insert.
    + done.
    + rw_heap Hrec.
    + done.
    + done.
    + done.
    + intros u. by apply snapshot_ok_insert.
    + done.
  - (* Swap_wait *)
    rw_case Hst; [lia| |done]. injection Hst as <- <-.
    counters Hrd Hwr Hho Hwm Hrec. rw_open Hop.
    apply (Inv_update w ts i _ _ _ HI Hi); simpl.
    + lia.
    + by rewrite length_insert.
    + done.
    + rw_heap Hrec.
    + done.
    + done.
    + intros o [= <-]. right. eexists. split.
      * apply list_lookup_insert_eq. by eapply lookup_lt_Some.
      * done.
    + intros u. by apply snapshot_ok_insert.
    + done.
  - (* Swap_RWUnlock *)
    rw_case Hst; [lia| |]; counters Hrd Hwr Hho Hwm Hrec; rw_open Hop; try lia.
    apply (Inv_update w ts i _ _ _ HI Hi); simpl.
    + lia.
    + by rewrite length_insert.
    + done.
    + rw_heap Hrec.
    + done.
    + done.
    + intros o [= <-]. by left.
    + intros u. by apply snapshot_ok_insert.
    + done.
  - (* Swap_absorb *)
    destruct (heap w !! oldReader) as [rec|] eqn:Hrec.
    2:{ apply lookup_ge_None in Hrec. lia. }
    injection Hst as <- <-.
    apply (Inv_update w ts i _ _ _ HI Hi); simpl;
      [lia | done | done
      | intros g rec' Hg'; left; exists rec'; done
      | done | done | intros o [= <-]; by left | done | done].
  - (* Reader_TryRLock *)
    rw_case Hst; [lia| |].
    + injection Hst as <- <-.
      counters Hrd Hwr Hho Hwm Hrec. rw_open Hop.
      apply (Inv_update w ts i _ _ _ HI Hi); simpl.
      * lia.
      * by rewrite length_insert.
      * done.
      * rw_heap Hrec.
      * done.
      * done.
      * done.
      * intros u. by apply snapshot_ok_insert.
      * done.
    + injection Hst as <- <-.
      apply (Inv_update w ts i _ _ _ HI Hi); simpl;
        [lia | done | done
        | intros g rec' Hg'; left; exists rec'; done
        | done | done | done | done | done].
  - (* Reader_reload *)
    destruct (decide (c = current_ptr w)) as [->|Hne].
    + destruct (heap w !! current_ptr w) as [rec|] eqn:Hrec.
      2:{ apply lookup_ge_None in Hrec. lia. }
      injection Hst as <- <-.
      apply (Inv_update w ts i _ _ _ HI Hi); simpl;
        [lia | done | done
        | intros g rec' Hg'; left; exists rec'; done
        | done | | done | done | by rewrite Hrec].
      intros g Hg. rewrite decide_False by lia. done.
    + injection Hst as <- <-.
      apply (Inv_update w ts i _ _ _ HI Hi); simpl;
        [lia | done | lia
        | intros g rec' Hg'; left; exists rec'; done
        | done | done | done | done | done].
  - (* Reader_RUnlock *)
    rw_case Hst; [lia| |]; counters Hrd Hwr Hho Hwm Hrec; rw_open Hop; try lia.
    apply (Inv_update w ts i _ _ _ HI Hi); simpl.
    + lia.
    + by rewrite length_insert.
    + done.
    + rw_heap Hrec.
    + done.
    + done.
    + done.
    + intros u. by apply snapshot_ok_insert.
    + done.
Qed.
End Preservation.

Section Reachable.
Context {T : Type}.
Implicit Types (w : Writer T) (t : Task T) (ts : list (Task T)).

Lemma Inv_New (reader writer : T) : Inv (New reader writer, []).
Proof.
  constructor; simpl; try done.
  all: try (intros [|g] rec; simpl; [intros [= <-]; done | done]).
  all: try (intros t o Ht; by apply elem_of_nil in Ht).
Qed.

Lemma Inv_Spawn w ts t : Inv (w, ts) → is_entry t = true → Inv (w, ts ++ [t]).
Proof.
  intros [Hlive Hrefs Hrd Hwr Hgd Hdr Hsn] Ht. simpl in *.
  assert (Hz : ∀ f : Task T → nat, f t = 0 →
            sum_list_with f (ts ++ [t]) = sum_list_with f ts).
  { intros f Hf. rewrite sum_list_with_app. simpl. lia. }
  constructor; simpl.
  - done.
  - apply Forall_app. split; [done|]. apply Forall_singleton. by destruct t.
  - intros g rec Hg. rewrite Hz; [by apply Hrd | by destruct t].
  - intros g rec Hg. rewrite Hz; [by apply Hwr | by destruct t].
  - rewrite Hz; [done | by destruct t].
  - intros u o [Hu|Hu]%elem_of_app Ho.
    + rewrite Hz; [by eapply Hdr | by destruct t].
    + apply list_elem_of_singleton in Hu as ->. by destruct t.
  - apply Forall_app. split; [done|]. apply Forall_singleton. by destruct t.
Qed.

Lemma Inv_CallGet w ts i r w' r' res :
  Inv (w, ts) → ts !! i = Some (Reader_ret r) →
  Reader_Get w r = (w', r', res) →
  Inv (w', <[i := after_call r' res]> ts).
Proof.
  intros HI Hi. unfold Reader_Get.
  destruct (Reader_done r) eqn:Hd; intros [= <- <- <-]; simpl.
  - apply (Inv_update w ts i _ _ _ HI Hi); simpl; rewrite ?Hd;
      [lia | apply (inv_live _ HI) | done
      | intros g rec' Hg'; left; exists rec'; done
      | done | done | done | done | done].
  - by rewrite list_insert_id.
Qed.

Lemma Inv_CallDone w ts i r w' r' res :
  Inv (w, ts) → ts !! i = Some (Reader_ret r) →
  Reader_Done w r = (w', r', res) →
  Inv (w', <[i := after_call r' res]> ts).
Proof.
  intros HI Hi. unfold Reader_Done.
  pose proof (inv_live _ HI) as Hlive.
  pose proof (proj1 (Forall_lookup _ _) (inv_refs _ HI) i _ Hi) as Hrt.
  pose proof (proj1 (Forall_lookup _ _) (inv_snapshot _ HI) i _ Hi) as Hst0.
  pose proof (list_elem_of_lookup_2 _ _ _ Hi) as Hin.
  pose proof (sum_elem (hold (Reader_mu r)) ts _ Hin) as Hho.
  pose proof (inv_readers _ HI) as Hrd.
  simpl in *.
  destruct (Reader_done r) eqn:Hd.
  { intros [= <- <- <-]; simpl.
    apply (Inv_update w ts i _ _ _ HI Hi); simpl; rewrite ?Hd;
      [lia | done | done
      | intros g rec' Hg'; left; exists rec'; done
      | done | done | done | done | done]. }
  rewrite decide_True in Hho by done.
  unfold on_rw.
  destruct (heap w !! Reader_mu r) as [rec|] eqn:Hrec.
  2:{ apply lookup_ge_None in Hrec. lia. }
  specialize (Hrd _ _ Hrec). unfold RWMutex.RUnlock.
  destruct (RWMutex.readerCount (rw rec)) as [|n] eqn:Hn; [lia|]. simpl.
  intros [= <- <- <-]; simpl.
  apply (Inv_update w ts i _ _ _ HI Hi); simpl; rewrite ?Hd.
  - lia.
  - by rewrite length_insert.
  - done.
  - intros g rec' Hg.
    apply (rw_update_heap _ _ _ _ _ _ Hrec) in Hg as [[-> ->]|[Hne Hg]];
      left; eexists; (split; [eassumption|]); simpl.
    + rewrite decide_True by done. lia.
    + rewrite decide_False by done. done.
  - done.
  - intros g _. lia.
  - done.
  - intros u. by apply snapshot_ok_insert.
  - by rewrite (lookup_v_insert _ _ _ _ _ Hrec), Hrec.
Qed.

Lemma Inv_action (c c' : Config T) a :
  Inv c → do_action a c = Some c' → Inv c'.
Proof.
  destruct c as [w ts]. intros HI. destruct a as [t|i|i|i]; simpl.
  - destruct (is_entry t) eqn:Ht; [|done]. intros [= <-]. by apply Inv_Spawn.
  - destruct (ts !! i) as [t|] eqn:Hi; [|done].
    destruct (step_task w t) as [[w1 t1]|] eqn:Hst; [|done].
    intros [= <-]. by eapply Inv_step.
  - destruct (ts !! i) as [[]|] eqn:Hi; try done.
    destruct (Reader_Get w r) as [[w1 r1] res] eqn:E.
    intros [= <-]. by eapply Inv_CallGet.
  - destruct (ts !! i) as [[]|] eqn:Hi; try done.
    destruct (Reader_Done w r) as [[w1 r1] res] eqn:E.
    intros [= <-]. by eapply Inv_CallDone.
Qed.

Lemma reachable_Inv (reader writer : T) c : reachable reader writer c → Inv c.
Proof.
  induction 1 as [|c a c' _ IH Ha]; [apply Inv_New | by eapply Inv_action].
Qed.

Lemma exec_reachable (reader writer : T) acts c c' :
  reachable reader writer c → exec acts c = Some c' →
  reachable reader writer c'.
Proof.
  revert c. induction acts as [|a acts IH]; simpl; intros c Hc.
  - by intros [= <-].
  - destruct (do_action a c) as [c1|] eqn:Ha; [|done].
    apply IH. by eapply reach_action.
Qed.
End Reachable.

(** * One thread alone *)

Section Sequential.
Context {T : Type}.
Implicit Types (w : Writer T) (t : Task T) (x : T).

Lemma run_final fuel w t : final t = true → run fuel w t = Some (w, t).
Proof. intros H. destruct fuel; simpl; by rewrite H. Qed.

Lemma quiet_New (reader writer : T) : quiet (New reader writer).
Proof. split; [done|]. by eexists. Qed.

Lemma run_Get w k :
  unsyncWriterCheck w = false →
  run (3 + k) w Writer_Get = Some (w, Get_ret (writerValue w)).
Proof.
  intros Hg. destruct w as [h c g x]. simpl in *. subst g.
  unfold guard_enter, guard_leave; simpl. by rewrite run_final.
Qed.

Lemma run_Set w x k :
  unsyncWriterCheck w = false →
  run (4 + k) w (Writer_Set x)
    = Some (set_writerValue w x, Set_ret (writerValue w)).
Proof.
  intros Hg. destruct w as [h c g y]. simpl in *. subst g.
  unfold guard_enter, guard_leave; simpl. by rewrite run_final.
Qed.

Lemma run_Swap w rec k :
  unsyncWriterCheck w = false → live w = Some rec → rw rec = RWMutex.zero →
  run (7 + k) w Writer_Swap
    = Some (swapped w (v rec), Swap_ret (current_ptr w)).
Proof.
  intros Hg Hl Hz. destruct w as [h c g y]. destruct rec as [m z].
  unfold live in Hl. simpl in *. subst g m.
  pose proof (lookup_lt_Some _ _ _ Hl) as Hlt.
  assert (Hlt' : c < length (h ++ [mkCurrent RWMutex.zero y]))
    by (rewrite length_app; simpl; lia).
  simpl. unfold guard_enter, guard_leave; simpl. unfold on_rw; simpl.
  rewrite (lookup_app_l_Some _ _ _ _ Hl). simpl.
  unfold on_rw; simpl.
  rewrite list_lookup_insert_eq by done. simpl.
  unfold on_rw; simpl.
  rewrite list_lookup_insert_eq by (by rewrite length_insert). simpl.
  rewrite list_lookup_insert_eq by (by rewrite !length_insert). simpl.
  unfold guard_leave; simpl.
  rewrite run_final by done.
  unfold swapped, set_guard, set_writerValue, set_heap; simpl.
  pose proof (lookup_app_l_Some _ [mkCurrent RWMutex.zero y] _ _ Hl) as Hl'.
  change (RWMutex.mk 0 RWMutex.WFree) with RWMutex.zero.
  by rewrite !list_insert_insert_eq, (list_insert_id _ _ _ Hl').
Qed.

Lemma run_Reader w rec k :
  live w = Some rec → RWMutex.writer (rw rec) = RWMutex.WFree →
  run (3 + k) w Writer_Reader
    = Some (rlocked w rec, Reader_ret (mkReader (current_ptr w) false (v rec))).
Proof.
  intros Hl Hf. unfold live in Hl.
  pose proof (lookup_lt_Some _ _ _ Hl) as Hlt.
  simpl. unfold on_rw. rewrite Hl. unfold RWMutex.TryRLock. rewrite Hf. simpl.
  rewrite decide_True by done.
  rewrite list_lookup_insert_eq by done. simpl.
  by rewrite run_final.
Qed.

Lemma Done_rlocked w rec :
  live w = Some rec → RWMutex.writer (rw rec) = RWMutex.WFree →
  Reader_Done (rlocked w rec) (mkReader (current_ptr w) false (v rec))
    = (w, mkReader (current_ptr w) true (v rec), Ok tt).
Proof.
  intros Hl Hf. unfold live in Hl.
  pose proof (lookup_lt_Some _ _ _ Hl) as Hlt.
  unfold Reader_Done, on_rw, rlocked. simpl.
  rewrite list_lookup_insert_eq by done. simpl.
  rewrite list_insert_insert_eq.
  destruct w as [h c g y], rec as [[n s] z]. simpl in *. subst s.
  unfold set_heap. simpl. by rewrite list_insert_id.
Qed.

Lemma published_swapped w old : published (swapped w old) = Some (writerValue w).
Proof.
  unfold published, live, swapped. simpl.
  by rewrite lookup_app_r, Nat.sub_diag by lia.
Qed.

Lemma quiet_swapped w old : quiet (swapped w old).
Proof.
  split; [done|]. exists (mkCurrent RWMutex.zero (writerValue w)).
  split; [|done]. unfold live, swapped. simpl.
  by rewrite lookup_app_r, Nat.sub_diag by lia.
Qed.

Lemma quiet_set_writerValue w x : quiet w → quiet (set_writerValue w x).
Proof. done. Qed.
End Sequential.

(** * The claims *)

Section Claims.
Context {T : Type}.
Implicit Types (w : Writer T) (t : Task T) (ts : list (Task T)) (x : T).

Lemma Gets_active n w (r : Reader T) :
  Reader_done r = false → Gets n w r = (w, r, replicate n (Ok (Reader_v r))).
Proof.
  intros Hd. induction n as [|n IH]; simpl; [done|].
  unfold Reader_Get. rewrite Hd, IH. done.
Qed.
End Claims.

(** C10 — [Get] on a Reader that was not released changes nothing: however
    often it is called, each call returns the snapshot, and the memory (so
    the lock of the record) and the Reader are as before. *)
Theorem Reader_Get_frame (T : Type) (w : Writer T) (r : Reader T) (n : nat)
    (Hactive : Reader_done r = false) :
  Reader_Get w r = (w, r, Ok (Reader_v r)) ∧
  Gets n w r = (w, r, replicate n (Ok (Reader_v r))).
Proof.
  split; [|by apply Gets_active]. unfold Reader_Get. by rewrite Hactive.
Qed.

Lemma Reader_Get_frame_witness :
  Gets 3 (New 7 8) (mkReader 0 false 7) = (New 7 8, mkReader 0 false 7, [Ok 7; Ok 7; Ok 7]).
Proof.
  exact (proj2 (Reader_Get_frame nat (New 7 8) (mkReader 0 false 7) 3 eq_refl)).
Defined.

Lemma after_reachable acts :
  is_Some (exec acts (New 0 1, [])) → reachable 0 1 (after acts).
Proof.
  intros [c Hc]. unfold after. rewrite Hc. simpl.
  eapply exec_reachable; [apply reach_New | exact Hc].
Defined.

(** C3 — in a reachable configuration, for a thread that owns a Reader:
    [Get] and [Done] panic with [StaleReaderUse] exactly when the Reader is
    released, and then change neither the Reader nor the memory; on a
    Reader that is not released [Get] returns the snapshot and [Done]
    succeeds, sets [done] and gives back one read lock of the record.  The
    Reader that [Reader()] returns is not released. *)
Theorem Reader_stale_use (T : Type) (r0 w0 : T) (w : Writer T)
    (ts : list (Task T)) (i : nat) (r : Reader T)
    (Hreach : reachable r0 w0 (w, ts))
    (Hi : ts !! i = Some (Reader_ret r)) :
  ((Reader_Get w r).2 = Panic StaleReaderUse ↔ Reader_done r = true) ∧
  ((Reader_Done w r).2 = Panic StaleReaderUse ↔ Reader_done r = true) ∧
  (Reader_done r = true →
     Reader_Get w r = (w, r, Panic StaleReaderUse) ∧
     Reader_Done w r = (w, r, Panic StaleReaderUse)) ∧
  (Reader_done r = false →
     Reader_Get w r = (w, r, Ok (Reader_v r)) ∧
     ∃ rec n,
       heap w !! Reader_mu r = Some rec ∧
       RWMutex.readerCount (rw rec) = S n ∧
       Reader_Done w r =
         (set_heap w (<[Reader_mu r :=
             mkCurrent (RWMutex.mk n (RWMutex.writer (rw rec))) (v rec)]> (heap w)),
          mkReader (Reader_mu r) true (Reader_v r), Ok tt)) ∧
  (∀ (w1 : Writer T) t1 w2 r2, step_task w1 t1 = Some (w2, Reader_ret r2) →
     Reader_done r2 = false).
Proof.
  pose proof (reachable_Inv _ _ _ Hreach) as HI.
  pose proof (inv_live _ HI) as Hlive.
  pose proof (proj1 (Forall_lookup _ _) (inv_refs _ HI) i _ Hi) as Hrt.
  pose proof (sum_elem (hold (Reader_mu r)) ts _ (list_elem_of_lookup_2 _ _ _ Hi)) as Hho.
  pose proof (inv_readers _ HI) as Hrd. simpl in *.
  assert (Hdone : Reader_done r = false →
     ∃ rec n, heap w !! Reader_mu r = Some rec ∧
       RWMutex.readerCount (rw rec) = S n ∧
       Reader_Done w r =
         (set_heap w (<[Reader_mu r :=
             mkCurrent (RWMutex.mk n (RWMutex.writer (rw rec))) (v rec)]> (heap w)),
          mkReader (Reader_mu r) true (Reader_v r), Ok tt)).
  { intros Hd. rewrite Hd, decide_True in Hho by done.
    destruct (heap w !! Reader_mu r) as [rec|] eqn:Hrec.
    2:{ apply lookup_ge_None in Hrec. lia. }
    specialize (Hrd _ _ Hrec).
    destruct (RWMutex.readerCount (rw rec)) as [|n] eqn:Hn; [lia|].
    exists rec, n. split; [done|]. split; [done|].
    unfold Reader_Done, on_rw, RWMutex.RUnlock. by rewrite Hd, Hrec, Hn. }
  split; [|split; [|split; [|split]]].
  - unfold Reader_Get. destruct (Reader_done r); simpl; split; done.
  - destruct (Reader_done r) eqn:Hd.
    + unfold Reader_Done. rewrite Hd. done.
    + destruct (Hdone eq_refl) as (rec & n & _ & _ & ->). simpl. split; done.
  - intros Hd. unfold Reader_Get, Reader_Done. by rewrite Hd.
  - intros Hd. split; [|by apply Hdone]. unfold Reader_Get. by rewrite Hd.
  - intros w1 t1 w2 r2 Hst.
    destruct t1; simpl in Hst; unfold guard_enter, guard_leave in Hst;
      repeat case_match; simplify_eq; done.
Qed.

Lemma Reader_stale_use_witness :
  Reader_Get (after sched_reader).1 (mkReader 0 false 0)
    = ((after sched_reader).1, mkReader 0 false 0, Ok 0).
Proof.
  apply (Reader_stale_use nat 0 1 (after sched_reader).1 (after sched_reader).2
           0 (mkReader 0 false 0)
           (after_reachable sched_reader (mk_is_Some _ _ eq_refl)) eq_refl).
  reflexivity.
Defined.

(** The guard is held exactly while some thread is between the [TryLock]
    and the [Unlock] of a writer call. *)
Lemma guard_held_iff {T : Type} (c : Config T) :
  Inv c →
  unsyncWriterCheck c.1 = true ↔ ∃ j u, c.2 !! j = Some u ∧ critical u = 1.
Proof.
  intros HI. pose proof (inv_guard _ HI) as Hg. split.
  - intros Ht. rewrite Ht in Hg.
    destruct (sum_pos critical c.2) as (u & Hu & Hpos); [lia|].
    apply list_elem_of_lookup_1 in Hu as [j Hj]. exists j, u. split; [done|].
    destruct u; simpl in *; lia.
  - intros (j & u & Hj & Hu).
    pose proof (sum_elem critical _ _ (list_elem_of_lookup_2 _ _ _ Hj)).
    destruct (unsyncWriterCheck c.1); [done | lia].
Qed.

(** C4 — a thread about to enter [Get], [Set] or [Swap] panics with
    [ConcurrentWriterMisuse] exactly when the guard is held, that is when
    another thread is inside a writer call; the panic leaves the Writer as
    it was (writer-side value, live reference and all), otherwise the thread
    takes the guard and nothing else changes.  No later action of any call
    panics. *)
Theorem writer_misuse (T : Type) (r0 w0 : T) (w : Writer T)
    (ts : list (Task T)) (i : nat) (t : Task T)
    (Hreach : reachable r0 w0 (w, ts))
    (Hi : ts !! i = Some t)
    (Hentry : writer_entry t = true) :
  ∃ (w' : Writer T) (t' : Task T),
    step_task w t = Some (w', t') ∧
    (t' = Panicked ConcurrentWriterMisuse ↔ unsyncWriterCheck w = true) ∧
    (unsyncWriterCheck w = true ↔
       ∃ j u, j ≠ i ∧ ts !! j = Some u ∧ critical u = 1) ∧
    (unsyncWriterCheck w = true → w' = w) ∧
    (unsyncWriterCheck w = false →
       w' = set_guard w true ∧ critical t' = 1 ∧
       writerValue w' = writerValue w ∧ current_ptr w' = current_ptr w ∧
       heap w' = heap w) ∧
    (∀ (w1 : Writer T) u w2 m,
       step_task w1 u = Some (w2, Panicked m) →
       writer_entry u = true ∧ m = ConcurrentWriterMisuse ∧
       unsyncWriterCheck w1 = true ∧ w2 = w1).
Proof.
  pose proof (guard_held_iff _ (reachable_Inv _ _ _ Hreach)) as Hheld.
  simpl in Hheld.
  assert (Hothers : unsyncWriterCheck w = true ↔
            ∃ j u, j ≠ i ∧ ts !! j = Some u ∧ critical u = 1).
  { rewrite Hheld. split.
    - intros (j & u & Hj & Hu). exists j, u. split; [|done].
      intros ->. rewrite Hi in Hj. injection Hj as <-. by destruct t.
    - intros (j & u & _ & Hj & Hu). eauto. }
  assert (Hpanic : ∀ (w1 : Writer T) u w2 m,
       step_task w1 u = Some (w2, Panicked m) →
       writer_entry u = true ∧ m = ConcurrentWriterMisuse ∧
       unsyncWriterCheck w1 = true ∧ w2 = w1).
  { intros w1 u w2 m Hst.
    destruct u; simpl in Hst;
      unfold guard_enter, guard_leave, Mutex.TryLock, Mutex.Unlock in Hst;
      repeat case_match; simplify_eq; done. }
  destruct t; try done; simpl;
    unfold guard_enter, Mutex.TryLock;
    destruct (unsyncWriterCheck w) eqn:Hg; simpl;
    eexists _, _; (split; [reflexivity|]);
    (split; [split; done|]); (split; [exact Hothers|]);
    (split; [done|]); (split; [|exact Hpanic]);
    try done; intros _; repeat split; done.
Qed.

Lemma writer_misuse_witness :
  step_task (after sched_two_writers).1 (Writer_Set 5)
    = Some ((after sched_two_writers).1, Panicked ConcurrentWriterMisuse).
Proof.
  destruct (writer_misuse nat 0 1 (after sched_two_writers).1
              (after sched_two_writers).2 1 (Writer_Set 5)
              (after_reachable sched_two_writers (mk_is_Some _ _ eq_refl))
              eq_refl eq_refl)
    as (w' & t' & Hst & Hp & _ & Hsame & _).
  rewrite Hst, (Hsame eq_refl), (proj2 Hp eq_refl). reflexivity.
Defined.

(** C5 — in a reachable configuration, an action of a thread gives it a
    Reader only at the reload, taken after the read lock, when the record
    it locked is the live one; the Reader is on that record, not released,
    with the record's value as snapshot, and the thread holds a read lock
    on the record.  When the reload finds another record live, the thread
    gives the read lock back and starts again from the load.  The reload is
    reached only through a [TryRLock] that succeeded. *)
Theorem Reader_acquisition (T : Type) (r0 w0 : T) (w : Writer T)
    (ts : list (Task T)) (i : nat) (t : Task T) (w' : Writer T) (t' : Task T)
    (Hreach : reachable r0 w0 (w, ts))
    (Hi : ts !! i = Some t)
    (Hstep : step_task w t = Some (w', t')) :
  (∀ r, t' = Reader_ret r →
     ∃ rec, t = Reader_reload (current_ptr w) ∧ w' = w ∧
       live w = Some rec ∧ 1 ≤ RWMutex.readerCount (rw rec) ∧
       r = mkReader (current_ptr w) false (v rec)) ∧
  (∀ c, t = Reader_reload c → c ≠ current_ptr w →
     w' = w ∧ t' = Reader_RUnlock c) ∧
  (∀ c, t = Reader_RUnlock c →
     t' = Reader_Load ∧
     ∃ rec n, heap w !! c = Some rec ∧ RWMutex.readerCount (rw rec) = S n ∧
       w' = set_heap w (<[c :=
              mkCurrent (RWMutex.mk n (RWMutex.writer (rw rec))) (v rec)]> (heap w))) ∧
  (∀ c, t' = Reader_reload c →
     t = Reader_TryRLock c ∧
     ∃ rec, heap w !! c = Some rec ∧
       RWMutex.writer (rw rec) = RWMutex.WFree ∧
       w' = set_heap w (<[c :=
              mkCurrent (RWMutex.mk (S (RWMutex.readerCount (rw rec))) RWMutex.WFree)
                (v rec)]> (heap w))) ∧
  (t = Reader_Load → w' = w ∧ t' = Reader_TryRLock (current_ptr w)).
Proof.
  pose proof (reachable_Inv _ _ _ Hreach) as HI.
  pose proof (inv_live _ HI) as Hlive.
  pose proof (proj1 (Forall_lookup _ _) (inv_refs _ HI) i _ Hi) as Hrt.
  pose proof (λ g, sum_elem (hold g) ts _ (list_elem_of_lookup_2 _ _ _ Hi)) as Hho.
  pose proof (inv_readers _ HI) as Hrd. simpl in *.
  split; [|split; [|split; [|split]]].
  - intros r ->.
    destruct t; simpl in Hstep; unfold guard_enter, guard_leave in Hstep;
      repeat case_match; simplify_eq.
    match goal with H : heap ?w1 !! current_ptr ?w1 = Some ?rec |- _ =>
      specialize (Hho (current_ptr w1)); simpl in Hho;
      rewrite decide_True in Hho by done;
      exists rec; specialize (Hrd _ _ H); repeat split; try done; lia end.
  - intros c -> Hne. simpl in Hstep. rewrite decide_False in Hstep by done.
    by injection Hstep as <- <-.
  - intros c ->. simpl in Hstep, Hrt. specialize (Hho c). simpl in Hho.
    rewrite decide_True in Hho by done.
    destruct (heap w !! c) as [rec|] eqn:Hrec.
    2:{ apply lookup_ge_None in Hrec. lia. }
    specialize (Hrd _ _ Hrec).
    destruct (RWMutex.readerCount (rw rec)) as [|n] eqn:Hn; [lia|].
    unfold on_rw, RWMutex.RUnlock in Hstep. rewrite Hrec, Hn in Hstep.
    simpl in Hstep. injection Hstep as <- <-. split; [done|]. by exists rec, n.
  - intros c ->.
    destruct t; simpl in Hstep; unfold guard_enter, guard_leave in Hstep;
      repeat case_match; simplify_eq.
    match goal with H : on_rw _ _ _ = _ |- _ =>
      apply on_rw_Some in H as (rec & m & Hrec & Hop & ->) end.
    split; [done|]. exists rec. unfold RWMutex.TryRLock in Hop.
    destruct (RWMutex.writer (rw rec)) eqn:Hw; simplify_eq. done.
  - intros ->. simpl in Hstep. by injection Hstep as <- <-.
Qed.

Lemma Reader_acquisition_witness :
  ∃ rec, live (after sched_reload).1 = Some rec ∧
         1 ≤ RWMutex.readerCount (rw rec).
Proof.
  destruct (proj1 (Reader_acquisition nat 0 1 (after sched_reload).1
              (after sched_reload).2 0 (Reader_reload 0)
              (after sched_reload).1 (Reader_ret (mkReader 0 false 0))
              (after_reachable sched_reload (mk_is_Some _ _ eq_refl))
              eq_refl eq_refl) _ eq_refl)
    as (rec & _ & _ & Hl & Hc & _).
  exists rec. split; assumption.
Defined.

(** C2 — in a reachable configuration: once the [Swap] of a thread has
    locked the record it replaced (and at every later point of that call,
    its return included), no thread owns an unreleased Reader on that
    record; and while such a Reader exists the waiting [Swap] cannot move.
    The record is the one that was live when [Swap] published, and a thread
    gets past the lock only from the wait. *)
Theorem Swap_waits_for_readers (T : Type) (r0 w0 : T) (w : Writer T)
    (ts : list (Task T))
    (Hreach : reachable r0 w0 (w, ts)) :
  (∀ i t o j r,
     ts !! i = Some t → drained t = Some o →
     ts !! j = Some (Reader_ret r) → Reader_mu r = o →
     Reader_done r = true) ∧
  (∀ i o j r,
     ts !! i = Some (Swap_wait o) →
     ts !! j = Some (Reader_ret r) → Reader_mu r = o → Reader_done r = false →
     step_task w (Swap_wait o) = None) ∧
  (∀ (w1 : Writer T) t w2 t' o,
     step_task w1 t = Some (w2, t') → drained t' = Some o →
     t = Swap_wait o ∨ drained t = Some o) ∧
  (∀ (w1 : Writer T) t w2 o,
     step_task w1 t = Some (w2, Swap_wait o) → t = Swap_Lock o) ∧
  (∀ (w1 : Writer T) t w2 o,
     step_task w1 t = Some (w2, Swap_Lock o) →
     t = Swap_publish ∧ o = current_ptr w1 ∧ current_ptr w2 = length (heap w1)).
Proof.
  pose proof (reachable_Inv _ _ _ Hreach) as HI.
  pose proof (inv_live _ HI) as Hlive. simpl in *.
  split; [|split; [|split; [|split]]].
  - intros i t o j r Hi Ho Hj Hmu.
    pose proof (inv_drained _ HI t o (list_elem_of_lookup_2 _ _ _ Hi) Ho) as Hz.
    pose proof (sum_elem (active_on o) ts _ (list_elem_of_lookup_2 _ _ _ Hj)) as Hle.
    simpl in *. destruct (Reader_done r); [done|].
    rewrite decide_True in Hle by done. lia.
  - intros i o j r Hi Hj Hmu Hd.
    pose proof (proj1 (Forall_lookup _ _) (inv_refs _ HI) i _ Hi) as Hrt.
    pose proof (sum_elem (hold o) ts _ (list_elem_of_lookup_2 _ _ _ Hj)) as Hle.
    simpl in *. rewrite Hd, decide_True in Hle by done.
    destruct (heap w !! o) as [rec|] eqn:Hrec.
    2:{ apply lookup_ge_None in Hrec. lia. }
    pose proof (inv_readers _ HI o rec Hrec) as Hrd. simpl in Hrd.
    unfold on_rw, RWMutex.Lock_acquire. rewrite Hrec.
    destruct (RWMutex.readerCount (rw rec)); [lia|].
    by destruct (RWMutex.writer (rw rec)).
  - intros w1 t w2 t' o Hst Ho.
    destruct t; simpl in Hst; unfold guard_enter, guard_leave in Hst;
      repeat case_match; simplify_eq; simpl in Ho; simplify_eq; auto.
  - intros w1 t w2 o Hst.
    destruct t; simpl in Hst; unfold guard_enter, guard_leave in Hst;
      repeat case_match; simplify_eq; done.
  - intros w1 t w2 o Hst.
    destruct t; simpl in Hst; unfold guard_enter, guard_leave in Hst;
      repeat case_match; simplify_eq; done.
Qed.

Lemma Swap_waits_for_readers_witness :
  step_task (after sched_swap_waits).1 (Swap_wait 0) = None.
Proof.
  exact (proj1 (proj2 (Swap_waits_for_readers nat 0 1
           (after sched_swap_waits).1 (after sched_swap_waits).2
           (after_reachable sched_swap_waits (mk_is_Some _ _ eq_refl))))
         1 0 0 (mkReader 0 false 0) eq_refl eq_refl eq_refl eq_refl).
Defined.

(** The same schedule at work: the waiting [Swap] cannot move; once the
    Reader is released it runs to its return. *)
Example Swap_moves_after_Done :
  exec (sched_swap_waits ++ [Step 1]) (New 0 1, []) = None ∧
  snd <$> exec (sched_swap_waits ++ [CallDone 0; Step 1; Step 1; Step 1; Step 1])
            (New 0 1, [])
    = Some [Reader_ret (mkReader 0 true 0); Swap_ret 0].
Proof. split; reflexivity. Qed.

(** ** The loop of [Reader()] *)

Section LockFree.
Context {T : Type}.
Implicit Types (w : Writer T) (t : Task T) (ts : list (Task T)).

(** The live record is never locked or announced for writing. *)
Lemma live_free w ts :
  Inv (w, ts) →
  ∃ rec, live w = Some rec ∧ RWMutex.writer (rw rec) = RWMutex.WFree.
Proof.
  intros HI. pose proof (inv_live _ HI) as Hlive. simpl in Hlive.
  unfold live. destruct (heap w !! current_ptr w) as [rec|] eqn:Hrec.
  2:{ apply lookup_ge_None in Hrec. lia. }
  exists rec. split; [done|].
  pose proof (inv_writer _ HI _ _ Hrec) as Hw. simpl in Hw.
  destruct (decide (0 < sum_list_with (wmark (current_ptr w)) ts)) as [Hpos|Hz].
  - apply sum_pos in Hpos as (u & Hu & Hm).
    pose proof (proj1 (Forall_forall _ _) (inv_refs _ HI) u Hu) as Hr.
    destruct u; simpl in *; try lia; case_decide; subst; lia.
  - destruct (RWMutex.writer (rw rec)); simpl in Hw; [done | lia | lia].
Qed.

Lemma stale_le_1 cur t : stale cur t ≤ 1.
Proof. destruct t; simpl; try case_decide; lia. Qed.

Lemma step_current_ptr w t w' t' :
  step_task w t = Some (w', t') → t ≠ Swap_publish →
  current_ptr w' = current_ptr w.
Proof.
  intros Hst Hne.
  destruct t; simpl in Hst;
    unfold guard_enter, guard_leave, on_rw in Hst;
    repeat case_match; simplify_option_eq; done.
Qed.
End LockFree.

Section LockFreeProofs.
Context {T : Type}.
Implicit Types (w : Writer T) (t : Task T) (ts : list (Task T)).

(** One action of a thread inside [Reader()]: it is never blocked, it
    returns or gets nearer to returning, and it goes back to the load only
    from an iteration that was stale. *)
Lemma reader_step w ts i t :
  Inv (w, ts) → ts !! i = Some t → in_Reader t = true →
  ∃ w1 t1,
    step_task w t = Some (w1, t1) ∧ current_ptr w1 = current_ptr w ∧
    ((∃ r, t1 = Reader_ret r) ∨
     (in_Reader t1 = true ∧ rank (current_ptr w) t1 < rank (current_ptr w) t)) ∧
    goes_back t1 + stale (current_ptr w) t1 ≤ stale (current_ptr w) t.
Proof.
  intros HI Hi Hrd.
  pose proof (inv_live _ HI) as Hlive.
  pose proof (proj1 (Forall_lookup _ _) (inv_refs _ HI) i _ Hi) as Hrt.
  pose proof (λ g, sum_elem (hold g) ts _ (list_elem_of_lookup_2 _ _ _ Hi)) as Hho.
  pose proof (inv_readers _ HI) as Hrd'.
  destruct (live_free w ts HI) as (lrec & Hl & Hfree). unfold live in Hl.
  simpl in *. destruct t; try done; simpl in *.
  - (* Reader_Load *)
    eexists _, _. split; [done|]. split; [done|]. simpl.
    rewrite !decide_True by done. split; [right; split; [done|lia] | lia].
  - (* Reader_TryRLock *)
    destruct (heap w !! c) as [rec|] eqn:Hrec.
    2:{ apply lookup_ge_None in Hrec. lia. }
    unfold on_rw, RWMutex.TryRLock. rewrite Hrec.
    destruct (RWMutex.writer (rw rec)) eqn:Hw; simpl.
    + eexists _, _. split; [done|]. split; [done|]. simpl.
      case_decide; (split; [right; split; [done|lia] | lia]).
    + eexists _, _. split; [done|]. split; [done|]. simpl.
      destruct (decide (c = current_ptr w)) as [->|_]; [congruence|].
      split; [right; split; [done|lia] | lia].
    + eexists _, _. split; [done|]. split; [done|]. simpl.
      destruct (decide (c = current_ptr w)) as [->|_]; [congruence|].
      split; [right; split; [done|lia] | lia].
  - (* Reader_reload *)
    destruct (decide (c = current_ptr w)) as [->|Hne].
    + rewrite Hl. eexists _, _. split; [done|]. split; [done|].
      split; [left; eauto | simpl; lia].
    + eexists _, _. split; [done|]. split; [done|]. simpl.
      split; [right; split; [done|lia] | lia].
  - (* Reader_RUnlock *)
    specialize (Hho c). rewrite decide_True in Hho by done.
    destruct (heap w !! c) as [rec|] eqn:Hrec.
    2:{ apply lookup_ge_None in Hrec. lia. }
    specialize (Hrd' _ _ Hrec).
    destruct (RWMutex.readerCount (rw rec)) as [|n] eqn:Hn; [lia|].
    unfold on_rw, RWMutex.RUnlock. rewrite Hrec, Hn. simpl.
    eexists _, _. split; [done|]. split; [done|]. simpl.
    split; [right; split; [done|lia] | lia].
Qed.

Lemma other_step w t w1 t1 :
  in_Reader t = false → step_task w t = Some (w1, t1) → in_Reader t1 = false.
Proof.
  intros Hrd Hst.
  destruct t; try done; simpl in Hst;
    unfold guard_enter, guard_leave in Hst;
    repeat case_match; simplify_eq; done.
Qed.

Lemma stale_other cur t : in_Reader t = false → stale cur t = 0 ∧ goes_back t = 0.
Proof. by destruct t. Qed.

Lemma rank_pos cur t : in_Reader t = true → 0 < rank cur t.
Proof. destruct t; try done; simpl; intros _; try case_decide; lia. Qed.

(** Left alone, a thread inside [Reader()] returns. *)
Lemma reader_returns_alone (r0 w0 : T) fuel w ts i t :
  reachable r0 w0 (w, ts) → ts !! i = Some t → in_Reader t = true →
  rank (current_ptr w) t ≤ fuel →
  ∃ w' r, run fuel w t = Some (w', Reader_ret r).
Proof.
  revert w ts t. induction fuel as [|fuel IH]; intros w ts t Hreach Hi Hrd Hrank.
  - pose proof (rank_pos (current_ptr w) t Hrd). lia.
  - destruct (reader_step w ts i t (reachable_Inv _ _ _ Hreach) Hi Hrd)
      as (w1 & t1 & Hst & Hptr & Hnext & _).
    simpl. replace (final t) with false by (by destruct t). rewrite Hst.
    destruct Hnext as [[r ->]|[Hrd1 Hlt]].
    + exists w1, r. by apply run_final.
    + apply (IH w1 (<[i := t1]> ts) t1); [|by apply list_lookup_insert_eq;
        eapply lookup_lt_Some|done|rewrite Hptr; lia].
      apply (reach_action _ _ (w, ts) (Step i)); [exact Hreach|].
      simpl. by rewrite Hi, Hst.
Qed.

(** One action of the schedule: thread [i] goes back to the load only by
    using up a staleness, and a staleness arises only by a publication. *)
Lemma tally_action (r0 w0 : T) (c c1 : Config T) a i t :
  reachable r0 w0 c → c.2 !! i = Some t → do_action a c = Some c1 →
  ∃ t1, c1.2 !! i = Some t1 ∧
    retried i a c1 + stale (current_ptr c1.1) t1
      ≤ publishes a c + stale (current_ptr c.1) t.
Proof.
  destruct c as [w ts]. intros Hreach Hi Ha. simpl in Hi.
  pose proof (reachable_Inv _ _ _ Hreach) as HI.
  pose proof (lookup_lt_Some _ _ _ Hi) as Hlt.
  destruct a as [u|j|j|j]; simpl in Ha.
  - destruct (is_entry u); [|done]. injection Ha as <-.
    exists t. simpl. split; [by apply lookup_app_l_Some | lia].
  - destruct (ts !! j) as [u|] eqn:Hj; [|done].
    destruct (step_task w u) as [[w1 u1]|] eqn:Hst; [|done].
    injection Ha as <-. simpl. rewrite Hj.
    destruct (decide (j = i)) as [->|Hne].
    + rewrite Hi in Hj. injection Hj as <-.
      rewrite list_lookup_insert_eq by done. exists u1. split; [done|].
      destruct (in_Reader t) eqn:Hrd.
      * destruct (reader_step w ts i t HI Hi Hrd) as (w1' & t1' & Hst' & Hptr & _ & Hle).
        rewrite Hst in Hst'. injection Hst' as <- <-. rewrite Hptr.
        assert (match u1 with Reader_Load => 1 | _ => 0 end = goes_back u1)
          as -> by done. lia.
      * pose proof (other_step _ _ _ _ Hrd Hst) as Hrd1.
        destruct (stale_other (current_ptr w1) u1 Hrd1) as [-> Hgb].
        assert (match u1 with Reader_Load => 1 | _ => 0 end = goes_back u1)
          as -> by done. lia.
    + rewrite list_lookup_insert_ne by done. exists t. split; [done|].
      assert (u = Swap_publish ∨ u ≠ Swap_publish) as [->|Hnp]
        by (destruct u; (by left) || (by right)).
      * pose proof (stale_le_1 (current_ptr w1) t). lia.
      * rewrite (step_current_ptr _ _ _ _ Hst Hnp). lia.
  - destruct (ts !! j) as [[]|] eqn:Hj; try done.
    unfold Reader_Get in Ha. destruct (Reader_done r); injection Ha as <-; simpl.
    + destruct (decide (j = i)) as [->|Hne].
      * rewrite Hi in Hj. injection Hj as ->.
        rewrite list_lookup_insert_eq by done. eexists. split; [done|]. simpl. lia.
      * rewrite list_lookup_insert_ne by done. exists t. split; [done|]. lia.
    + destruct (decide (j = i)) as [->|Hne].
      * rewrite Hi in Hj. injection Hj as ->.
        rewrite list_lookup_insert_eq by done. eexists. split; [done|]. simpl. lia.
      * rewrite list_lookup_insert_ne by done. exists t. split; [done|]. lia.
  - destruct (ts !! j) as [[]|] eqn:Hj; try done.
    destruct (Reader_Done w r) as [[w1 r1] res] eqn:HD.
    injection Ha as <-. simpl.
    assert (Hptr : current_ptr w1 = current_ptr w).
    { unfold Reader_Done, on_rw in HD.
      repeat case_match; simplify_option_eq; done. }
    rewrite Hptr.
    destruct (decide (j = i)) as [->|Hne].
    + rewrite Hi in Hj. injection Hj as ->.
      rewrite list_lookup_insert_eq by done. eexists. split; [done|].
      destruct res; simpl; lia.
    + rewrite list_lookup_insert_ne by done. exists t. split; [done|]. lia.
Qed.

Lemma tally_bound (r0 w0 : T) acts (c c' : Config T) i t n p :
  reachable r0 w0 c → c.2 !! i = Some t →
  tally i acts c = Some (c', n, p) →
  ∃ t', c'.2 !! i = Some t' ∧
    n + stale (current_ptr c'.1) t' ≤ p + stale (current_ptr c.1) t.
Proof.
  revert c t n p. induction acts as [|a acts IH]; intros c t n p Hreach Hi; simpl.
  - intros [= <- <- <-]. exists t. split; [done | lia].
  - destruct (do_action a c) as [c1|] eqn:Ha; [|done].
    destruct (tally i acts c1) as [[[c2 n2] p2]|] eqn:Ht; [|done].
    intros [= <- <- <-].
    destruct (tally_action r0 w0 c c1 a i t Hreach Hi Ha) as (t1 & Hi1 & Hle1).
    destruct (IH c1 t1 n2 p2 (reach_action _ _ _ _ _ Hreach Ha) Hi1 Ht)
      as (t' & Hi' & Hle).
    exists t'. split; [done | lia].
Qed.
End LockFreeProofs.

(** C9 as it is written fails: in [sched_late_retry] the [Swap] has
    returned, no thread is inside [Swap], and the thread in [Reader()] still
    goes back to the load. *)
Lemma late_retry : ¬ retries_only_during_Swap 0 1.
Proof.
  intros H.
  destruct (H (after sched_late_retry).1 (after sched_late_retry).2 0
              (Reader_RUnlock 0) _
              (after_reachable sched_late_retry (mk_is_Some _ _ eq_refl))
              eq_refl eq_refl eq_refl) as (j & u & Hj & Hu).
  destruct j as [|[|j]]; vm_compute in Hj; simplify_eq; discriminate Hu.
Qed.

(** C9, amended — [Reader()] never blocks: every action of a thread inside
    it can be taken in every state.  It is lock-free, not wait-free: a
    thread goes back to the load only when the record its iteration loaded
    is no longer the live one, that is after a [Swap] published since that
    load (the [Swap] may have returned by then); so along any schedule the
    number of times a call goes back to the load is at most the number of
    publications made meanwhile, plus one if its iteration was stale
    already.  Left alone the call returns within six actions, within three
    from its start. *)
Theorem Reader_lock_free (T : Type) (r0 w0 : T) (w : Writer T)
    (ts : list (Task T)) (i : nat) (t : Task T)
    (Hreach : reachable r0 w0 (w, ts))
    (Hi : ts !! i = Some t)
    (Hrd : in_Reader t = true) :
  (∀ (w1 : Writer T) u, in_Reader u = true →
     ∃ w2 u2, step_task w1 u = Some (w2, u2)) ∧
  (∀ w', step_task w t = Some (w', Reader_Load) →
     stale (current_ptr w) t = 1) ∧
  (∀ acts c' n p, tally i acts (w, ts) = Some (c', n, p) →
     n ≤ p + stale (current_ptr w) t) ∧
  (∃ w' r, run 6 w t = Some (w', Reader_ret r)) ∧
  (t = Reader_Load → ∃ w' r, run 3 w t = Some (w', Reader_ret r)).
Proof.
  pose proof (reachable_Inv _ _ _ Hreach) as HI.
  split; [|split; [|split; [|split]]].
  - intros w1 u Hu. destruct u; try done; simpl; repeat case_match; eauto.
  - intros w' Hst.
    destruct (reader_step w ts i t HI Hi Hrd) as (w1 & t1 & Hst1 & _ & _ & Hle).
    rewrite Hst in Hst1. injection Hst1 as <- <-. simpl in Hle.
    pose proof (stale_le_1 (current_ptr w) t). lia.
  - intros acts c' n p Ht.
    destruct (tally_bound r0 w0 acts (w, ts) c' i t n p Hreach Hi Ht)
      as (t' & _ & Hle). simpl in Hle. lia.
  - apply (reader_returns_alone r0 w0 6 w ts i t Hreach Hi Hrd).
    destruct t; try done; simpl; try case_decide; lia.
  - intros ->. by apply (reader_returns_alone r0 w0 3 w ts i _ Hreach Hi Hrd).
Qed.

Lemma Reader_lock_free_witness :
  ∃ w' r, run 3 (after sched_call_Reader).1 Writer_Reader
            = Some (w', Reader_ret r).
Proof.
  exact (proj2 (proj2 (proj2 (proj2 (Reader_lock_free nat 0 1
    (after sched_call_Reader).1 (after sched_call_Reader).2 0 Reader_Load
    (after_reachable sched_call_Reader (mk_is_Some _ _ eq_refl))
    eq_refl eq_refl)))) eq_refl).
Defined.

(** * More about the package *)

Section Exclusion.
Context {T : Type}.
Implicit Types (w : Writer T) (t u : Task T) (ts : list (Task T)).

(** The share of thread [i] in a count, and the share of the others. *)
Lemma sum_others (f : Task T → nat) ts i t :
  f Crashed = 0 → ts !! i = Some t →
  sum_list_with f ts = f t + sum_list_with f (<[i := Crashed]> ts).
Proof.
  intros Hz Hi. pose proof (sum_insert f ts i t Crashed Hi). lia.
Qed.

Lemma sum_bound (f g : Task T → nat) k ts :
  (∀ u, f u ≤ k * g u) → sum_list_with f ts ≤ k * sum_list_with g ts.
Proof.
  intros Hfg. induction ts as [|a ts IH]; simpl; [lia|].
  specialize (Hfg a). lia.
Qed.

Lemma wmark_critical g u : wmark g u ≤ 2 * critical u.
Proof. destruct u; simpl; try case_decide; lia. Qed.

(** While a thread is inside a writer call no other thread is. *)
Lemma critical_alone w ts i t :
  Inv (w, ts) → ts !! i = Some t → critical t = 1 →
  unsyncWriterCheck w = true ∧
  sum_list_with critical (<[i := Crashed]> ts) = 0.
Proof.
  intros HI Hi Hc. pose proof (inv_guard _ HI) as Hg. simpl in Hg.
  pose proof (sum_others critical ts i t eq_refl Hi) as Hs.
  destruct (unsyncWriterCheck w); [split; [done|lia] | lia].
Qed.

(** The writer side of the record that a thread inside [Swap] works on is
    what this thread made it. *)
Lemma wmark_own w ts i t g :
  Inv (w, ts) → ts !! i = Some t → critical t = 1 →
  sum_list_with (wmark g) ts = wmark g t.
Proof.
  intros HI Hi Hc.
  destruct (critical_alone w ts i t HI Hi Hc) as [_ Hz].
  pose proof (sum_others (wmark g) ts i t eq_refl Hi) as Hs.
  pose proof (sum_bound (wmark g) critical 2 (<[i := Crashed]> ts)
                (wmark_critical g)). lia.
Qed.

(** No action of a thread ends in a fatal error of the runtime. *)
Lemma step_no_crash w ts i t w' t' :
  Inv (w, ts) → ts !! i = Some t → step_task w t = Some (w', t') →
  t' ≠ Crashed.
Proof.
  intros HI Hi Hst ->.
  pose proof (inv_live _ HI) as Hlive.
  pose proof (proj1 (Forall_lookup _ _) (inv_refs _ HI) i t Hi) as Hrt.
  pose proof (list_elem_of_lookup_2 _ _ _ Hi) as Hin.
  pose proof (sum_elem critical ts t Hin) as Hcr.
  pose proof (λ g, sum_elem (hold g) ts t Hin) as Hho.
  pose proof (λ g, sum_elem (wmark g) ts t Hin) as Hwm.
  pose proof (inv_guard _ HI) as Hgd.
  pose proof (inv_readers _ HI) as Hrd.
  pose proof (inv_writer _ HI) as Hwr.
  simpl in *.
  destruct t; simpl in Hst, Hrt, Hcr, Hho, Hwm;
    unfold guard_enter, guard_leave, Mutex.TryLock, Mutex.Unlock, on_rw in Hst;
    try done.
  all: try (destruct (unsyncWriterCheck w) eqn:Hguard; simplify_eq; lia).
  all: try (destruct (heap w !! oldReader) as [rec|] eqn:Hrec;
            [|apply lookup_ge_None in Hrec; lia]).
  all: try (destruct (heap w !! c) as [rec|] eqn:Hrec;
            [|apply lookup_ge_None in Hrec; lia]).
  all: try (specialize (Hrd _ _ Hrec); specialize (Hwr _ _ Hrec)).
  - unfold RWMutex.Lock_announce in Hst. simpl in Hst.
    destruct (RWMutex.writer (rw rec)); simplify_eq.
  - unfold RWMutex.Lock_acquire in Hst. simpl in Hst.
    destruct (RWMutex.writer (rw rec)), (RWMutex.readerCount (rw rec)); simplify_eq.
  - specialize (Hwm oldReader). rewrite decide_True in Hwm by done.
    unfold RWMutex.Unlock in Hst. simpl in Hst.
    destruct (RWMutex.writer (rw rec)); simpl in *; simplify_eq; lia.
  - simplify_eq.
  - unfold RWMutex.TryRLock in Hst. simpl in Hst.
    destruct (RWMutex.writer (rw rec)); simplify_eq.
  - case_decide; simplify_eq.
  - specialize (Hho c). rewrite decide_True in Hho by done.
    unfold RWMutex.RUnlock in Hst. simpl in Hst.
    destruct (RWMutex.readerCount (rw rec)); simpl in *; simplify_eq; lia.
Qed.
End Exclusion.

Section Alive.
Context {T : Type}.
Implicit Types (w : Writer T) (t u : Task T) (ts : list (Task T)).

(** [Done] on a Reader that a thread owns finds its read lock. *)
Lemma Done_not_fatal w ts i r :
  Inv (w, ts) → ts !! i = Some (Reader_ret r) →
  (Reader_Done w r).2 ≠ Fatal.
Proof.
  intros HI Hi.
  pose proof (inv_live _ HI) as Hlive.
  pose proof (proj1 (Forall_lookup _ _) (inv_refs _ HI) i _ Hi) as Hrt.
  pose proof (sum_elem (hold (Reader_mu r)) ts _ (list_elem_of_lookup_2 _ _ _ Hi)) as Hho.
  pose proof (inv_readers _ HI) as Hrd. simpl in *.
  unfold Reader_Done, on_rw. destruct (Reader_done r) eqn:Hd; [done|].
  rewrite decide_True in Hho by done.
  destruct (heap w !! Reader_mu r) as [rec|] eqn:Hrec.
  2:{ apply lookup_ge_None in Hrec. lia. }
  specialize (Hrd _ _ Hrec). unfold RWMutex.RUnlock.
  destruct (RWMutex.readerCount (rw rec)); [lia | done].
Qed.

Lemma action_alive (c c' : Config T) a :
  Inv c → Forall (λ t, t ≠ Crashed) c.2 → do_action a c = Some c' →
  Forall (λ t, t ≠ Crashed) c'.2.
Proof.
  destruct c as [w ts]. intros HI Hal. simpl in Hal.
  destruct a as [t|i|i|i]; simpl.
  - destruct (is_entry t) eqn:Ht; [|done]. intros [= <-]. simpl.
    apply Forall_app. split; [done|]. apply Forall_singleton. by destruct t.
  - destruct (ts !! i) as [t|] eqn:Hi; [|done].
    destruct (step_task w t) as [[w1 t1]|] eqn:Hst; [|done].
    intros [= <-]. simpl. apply Forall_insert; [done|].
    by eapply step_no_crash.
  - destruct (ts !! i) as [[]|] eqn:Hi; try done.
    unfold Reader_Get. destruct (Reader_done r); intros [= <-]; simpl;
      by apply Forall_insert.
  - destruct (ts !! i) as [[]|] eqn:Hi; try done.
    pose proof (Done_not_fatal w ts i r HI Hi) as Hnf.
    destruct (Reader_Done w r) as [[w1 r1] res]. intros [= <-]. simpl.
    apply Forall_insert; [done|]. by destruct res.
Qed.

Lemma reachable_alive (r0 w0 : T) c :
  reachable r0 w0 c → Forall (λ t, t ≠ Crashed) c.2.
Proof.
  induction 1 as [|c a c' Hc IH Ha]; [by apply Forall_nil|].
  eapply action_alive; [by eapply reachable_Inv| |]; done.
Qed.
End Alive.

(** X1 — the package pairs its lock operations: in a reachable
    configuration no thread has met a fatal error of the runtime ([Unlock]
    or [RUnlock] of a mutex that is not locked, a record that is not there),
    no action of a thread meets one, and [Done] on a Reader that a thread
    owns does not either. *)
Theorem no_fatal_error (T : Type) (r0 w0 : T) (w : Writer T)
    (ts : list (Task T)) (i : nat) (t : Task T)
    (Hreach : reachable r0 w0 (w, ts))
    (Hi : ts !! i = Some t) :
  t ≠ Crashed ∧
  (∀ w' t', step_task w t = Some (w', t') → t' ≠ Crashed) ∧
  (∀ r, t = Reader_ret r →
     (Reader_Get w r).2 ≠ Fatal ∧ (Reader_Done w r).2 ≠ Fatal).
Proof.
  pose proof (reachable_Inv _ _ _ Hreach) as HI.
  split; [|split].
  - exact (proj1 (Forall_lookup _ _) (reachable_alive _ _ _ Hreach) i t Hi).
  - intros w' t' Hst. by eapply step_no_crash.
  - intros r ->. split; [|by eapply Done_not_fatal].
    unfold Reader_Get. by destruct (Reader_done r).
Qed.

Lemma no_fatal_error_witness :
  (Reader_Done (after sched_swap_waits).1 (mkReader 0 false 0)).2 ≠ Fatal.
Proof.
  exact (proj2 (proj2 (proj2 (no_fatal_error nat 0 1
    (after sched_swap_waits).1 (after sched_swap_waits).2 0
    (Reader_ret (mkReader 0 false 0))
    (after_reachable sched_swap_waits (mk_is_Some _ _ eq_refl)) eq_refl))
    _ eq_refl)).
Defined.

(** X2 — the guard keeps the writer calls apart: in a reachable
    configuration at most one thread is between the [TryLock] and the
    [Unlock] of [Get], [Set] or [Swap], and while one is the guard is
    held. *)
Theorem writer_calls_exclusive (T : Type) (r0 w0 : T) (w : Writer T)
    (ts : list (Task T)) (i j : nat) (t u : Task T)
    (Hreach : reachable r0 w0 (w, ts))
    (Hi : ts !! i = Some t) (Hj : ts !! j = Some u)
    (Ht : critical t = 1) (Hu : critical u = 1) :
  i = j ∧ unsyncWriterCheck w = true.
Proof.
  pose proof (reachable_Inv _ _ _ Hreach) as HI.
  destruct (critical_alone w ts i t HI Hi Ht) as [Hg Hz].
  split; [|done]. destruct (decide (i = j)) as [|Hne]; [done|].
  assert (Hj' : <[i := Crashed]> ts !! j = Some u)
    by (by rewrite list_lookup_insert_ne).
  pose proof (sum_elem critical _ _ (list_elem_of_lookup_2 _ _ _ Hj')). lia.
Qed.

Lemma writer_calls_exclusive_witness :
  unsyncWriterCheck (after sched_two_writers).1 = true.
Proof.
  exact (proj2 (writer_calls_exclusive nat 0 1
    (after sched_two_writers).1 (after sched_two_writers).2 0 0
    Get_load Get_load
    (after_reachable sched_two_writers (mk_is_Some _ _ eq_refl))
    eq_refl eq_refl eq_refl eq_refl)).
Defined.

(** X3 — the only place where a thread can be blocked is the [Lock] of
    [Swap]: in a reachable configuration a thread whose call is not over
    cannot move exactly when it is in [Swap], waiting for the replaced
    record, and some thread holds a read lock on that record. *)
Theorem only_Swap_waits (T : Type) (r0 w0 : T) (w : Writer T)
    (ts : list (Task T)) (i : nat) (t : Task T)
    (Hreach : reachable r0 w0 (w, ts))
    (Hi : ts !! i = Some t)
    (Hrun : final t = false) :
  step_task w t = None ↔
  ∃ o j u, t = Swap_wait o ∧ ts !! j = Some u ∧ hold o u = 1.
Proof.
  pose proof (reachable_Inv _ _ _ Hreach) as HI.
  pose proof (inv_live _ HI) as Hlive.
  pose proof (proj1 (Forall_lookup _ _) (inv_refs _ HI) i t Hi) as Hrt.
  simpl in *.
  assert (Hno : (∀ o, t ≠ Swap_wait o) → is_Some (step_task w t) →
            step_task w t = None ↔
            ∃ o j u, t = Swap_wait o ∧ ts !! j = Some u ∧ hold o u = 1).
  { intros Hne [x Hx]. rewrite Hx. split; [done|].
    intros (o & j & u & -> & _). by destruct (Hne o). }
  destruct t; try done; simpl in Hrt;
    try solve [apply Hno; [done | simpl; repeat case_match; eauto]].
  - (* Swap_Lock *)
    apply Hno; [done|]. simpl. unfold on_rw.
    destruct (heap w !! oldReader) as [rec|] eqn:Hrec; [|eauto].
    pose proof (inv_writer _ HI _ _ Hrec) as Hw. simpl in Hw.
    rewrite (wmark_own w ts i _ oldReader HI Hi eq_refl) in Hw. simpl in Hw.
    unfold RWMutex.Lock_announce.
    destruct (RWMutex.writer (rw rec)); simpl in *; [eauto | lia | lia].
  - (* Swap_wait *)
    simpl. unfold on_rw.
    destruct (heap w !! oldReader) as [rec|] eqn:Hrec.
    2:{ exfalso. apply lookup_ge_None in Hrec. lia. }
    pose proof (inv_writer _ HI _ _ Hrec) as Hw. simpl in Hw.
    rewrite (wmark_own w ts i _ oldReader HI Hi eq_refl) in Hw. simpl in Hw.
    rewrite decide_True in Hw by done.
    pose proof (inv_readers _ HI _ _ Hrec) as Hr. simpl in Hr.
    unfold RWMutex.Lock_acquire.
    destruct (RWMutex.writer (rw rec)); simpl in Hw; try lia.
    destruct (RWMutex.readerCount (rw rec)) as [|n] eqn:Hn; simpl.
    + split; [done|]. intros (o & j & u & [= <-] & Hj & Hu).
      pose proof (sum_elem (hold oldReader) _ _ (list_elem_of_lookup_2 _ _ _ Hj)).
      lia.
    + split; [|done]. intros _.
      destruct (sum_pos (hold oldReader) ts) as (u & Hu & Hpos); [lia|].
      apply list_elem_of_lookup_1 in Hu as [j Hj].
      exists oldReader, j, u. split; [done|]. split; [done|].
      destruct u; simpl in *; repeat case_match; lia.
Qed.

Lemma only_Swap_waits_witness :
  step_task (after sched_swap_waits).1 (Swap_wait 0) = None.
Proof.
  apply (only_Swap_waits nat 0 1 (after sched_swap_waits).1
           (after sched_swap_waits).2 1 (Swap_wait 0)
           (after_reachable sched_swap_waits (mk_is_Some _ _ eq_refl))
           eq_refl eq_refl).
  exists 0, 0, (Reader_ret (mkReader 0 false 0)). repeat split.
Defined.

Section Ownership.
Context {T : Type}.
Implicit Types (w : Writer T) (t u : Task T) (ts : list (Task T)).

Lemma swap_old_step w t w' t' g :
  step_task w t = Some (w', t') → swap_old t = Some g → t' ≠ Crashed →
  swap_old t' = Some g.
Proof.
  intros Hst Hg Hnc.
  destruct t; simpl in Hg; try done; simpl in Hst;
    unfold guard_leave in Hst; repeat case_match; simplify_eq; done.
Qed.

Lemma Done_current_ptr w (r : Reader T) :
  current_ptr (Reader_Done w r).1.1 = current_ptr w.
Proof.
  unfold Reader_Done, on_rw.
  repeat case_match; simplify_option_eq; done.
Qed.

Lemma replaced_known_action (c c' : Config T) a :
  Inv c → replaced_known c → do_action a c = Some c' → replaced_known c'.
Proof.
  destruct c as [w ts]. intros HI HK. unfold replaced_known in *. simpl in *.
  pose proof (inv_live _ HI) as Hlive. simpl in Hlive.
  destruct a as [t|i|i|i]; simpl.
  - destruct (is_entry t); [|done]. intros [= <-]. simpl. intros g Hg.
    destruct (HK g Hg) as (j & u & Hj & Hu). exists j, u.
    split; [by apply lookup_app_l_Some | done].
  - destruct (ts !! i) as [t|] eqn:Hi; [|done].
    destruct (step_task w t) as [[w1 t1]|] eqn:Hst; [|done].
    intros [= <-]. simpl. intros g Hg.
    pose proof (lookup_lt_Some _ _ _ Hi) as Hlt.
    assert (t = Swap_publish ∨ t ≠ Swap_publish) as [->|Hnp]
      by (destruct t; (by left) || (by right)).
    + simpl in Hst. injection Hst as <- <-. simpl in Hg.
      destruct (decide (g = current_ptr w)) as [->|Hne].
      * exists i, (Swap_Lock (current_ptr w)).
        split; [by apply list_lookup_insert_eq | done].
      * destruct (HK g) as (j & u & Hj & Hu); [lia|]. exists j, u.
        split; [|done]. rewrite list_lookup_insert_ne; [done|].
        intros ->. rewrite Hi in Hj. by injection Hj as <-.
    + rewrite (step_current_ptr _ _ _ _ Hst Hnp) in Hg.
      destruct (HK g Hg) as (j & u & Hj & Hu).
      destruct (decide (i = j)) as [->|Hne].
      * rewrite Hi in Hj. injection Hj as ->. exists j, t1.
        split; [by apply list_lookup_insert_eq|].
        eapply swap_old_step; [exact Hst | exact Hu |].
        by eapply step_no_crash.
      * exists j, u. split; [by rewrite list_lookup_insert_ne | done].
  - destruct (ts !! i) as [[]|] eqn:Hi; try done.
    unfold Reader_Get.
    destruct (Reader_done r); intros [= <-]; simpl; intros g Hg;
      destruct (HK g Hg) as (j & u & Hj & Hu); exists j, u;
      (split; [|done]); rewrite list_lookup_insert_ne; try done;
      intros ->; rewrite Hi in Hj; by injection Hj as <-.
  - destruct (ts !! i) as [[]|] eqn:Hi; try done.
    pose proof (Done_current_ptr w r) as Hptr.
    destruct (Reader_Done w r) as [[w1 r1] res]. simpl in Hptr.
    intros [= <-]. simpl. rewrite Hptr. intros g Hg.
    destruct (HK g Hg) as (j & u & Hj & Hu). exists j, u.
    split; [|done]. rewrite list_lookup_insert_ne; [done|].
    intros ->. rewrite Hi in Hj. by injection Hj as <-.
Qed.

Lemma reachable_replaced_known (r0 w0 : T) c :
  reachable r0 w0 c → replaced_known c.
Proof.
  induction 1 as [|c a c' Hc IH Ha].
  - intros g Hg. simpl in Hg. lia.
  - eapply replaced_known_action; [by eapply reachable_Inv| |]; done.
Qed.
End Ownership.

(** X4 — in a reachable configuration, a Reader that is not released is
    on the live record, unless the [Swap] that replaced its record is still
    before or in its [Lock], waiting for it.  So when no writer call is
    going on, every Reader that is not released is on the live record and
    its snapshot is the published value. *)
Theorem Readers_on_live (T : Type) (r0 w0 : T) (w : Writer T)
    (ts : list (Task T)) (i : nat) (r : Reader T)
    (Hreach : reachable r0 w0 (w, ts))
    (Hi : ts !! i = Some (Reader_ret r))
    (Hactive : Reader_done r = false) :
  (Reader_mu r = current_ptr w ∨
   ∃ j, ts !! j = Some (Swap_Lock (Reader_mu r)) ∨
        ts !! j = Some (Swap_wait (Reader_mu r))) ∧
  (unsyncWriterCheck w = false →
   Reader_mu r = current_ptr w ∧ published w = Some (Reader_v r)).
Proof.
  pose proof (reachable_Inv _ _ _ Hreach) as HI.
  pose proof (proj1 (Forall_lookup _ _) (inv_refs _ HI) i _ Hi) as Hrt.
  pose proof (proj1 (Forall_lookup _ _) (inv_snapshot _ HI) i _ Hi) as Hsn.
  simpl in *.
  assert (Hmain : Reader_mu r = current_ptr w ∨
    ∃ j, ts !! j = Some (Swap_Lock (Reader_mu r)) ∨
         ts !! j = Some (Swap_wait (Reader_mu r))).
  { destruct (decide (Reader_mu r = current_ptr w)) as [|Hne]; [by left|].
    right.
    destruct (reachable_replaced_known _ _ _ Hreach (Reader_mu r))
      as (j & u & Hj & Hu); [simpl; lia|]. simpl in Hj.
    exists j. destruct u; simpl in Hu; simplify_eq; auto.
    all: exfalso;
      pose proof (inv_drained _ HI _ (Reader_mu r)
                    (list_elem_of_lookup_2 _ _ _ Hj) eq_refl) as Hz;
      pose proof (sum_elem (active_on (Reader_mu r)) ts _
                    (list_elem_of_lookup_2 _ _ _ Hi)) as Hle;
      simpl in Hz, Hle; rewrite Hactive, decide_True in Hle by done; lia. }
  split; [done|]. intros Hg.
  destruct Hmain as [Heq|[j Hj]].
  - split; [done|]. unfold published, live. by rewrite <- Heq.
  - exfalso. pose proof (inv_guard _ HI) as Hgd. simpl in Hgd.
    rewrite Hg in Hgd.
    destruct Hj as [Hj|Hj];
      pose proof (sum_elem critical ts _ (list_elem_of_lookup_2 _ _ _ Hj)) as Hle;
      simpl in Hle; lia.
Qed.

Lemma Readers_on_live_witness :
  published (after sched_reader).1 = Some 0.
Proof.
  exact (proj2 (proj2 (Readers_on_live nat 0 1 (after sched_reader).1
    (after sched_reader).2 0 (mkReader 0 false 0)
    (after_reachable sched_reader (mk_is_Some _ _ eq_refl))
    eq_refl eq_refl) eq_refl)).
Defined.

(** X5 — the count of read locks of a record is the number of threads
    that hold one: the threads inside [Reader()] between its [TryRLock] and
    its return or [RUnlock], and the owners of Readers that are not
    released.  When there is none the record is not read-locked, and a
    [Swap] that replaces it does not wait. *)
Theorem read_locks_accounted (T : Type) (r0 w0 : T) (w : Writer T)
    (ts : list (Task T)) (g : nat) (rec : current T)
    (Hreach : reachable r0 w0 (w, ts))
    (Hrec : heap w !! g = Some rec) :
  RWMutex.readerCount (rw rec) = sum_list_with (hold g) ts ∧
  (RWMutex.readerCount (rw rec) = 0 ↔
   ∀ j u, ts !! j = Some u → hold g u = 0).
Proof.
  pose proof (inv_readers _ (reachable_Inv _ _ _ Hreach) g rec Hrec) as Hrd.
  simpl in Hrd. split; [done|]. rewrite Hrd. split.
  - intros Hz j u Hj.
    pose proof (sum_elem (hold g) ts u (list_elem_of_lookup_2 _ _ _ Hj)). lia.
  - intros Hall.
    destruct (decide (0 < sum_list_with (hold g) ts)) as [Hpos|]; [|lia].
    apply sum_pos in Hpos as (u & Hu & Hp).
    apply list_elem_of_lookup_1 in Hu as [j Hj].
    specialize (Hall j u Hj). lia.
Qed.

Lemma read_locks_accounted_witness :
  RWMutex.readerCount (RWMutex.mk 1 RWMutex.WPending)
    = sum_list_with (hold 0) (after sched_swap_waits).2.
Proof.
  exact (proj1 (read_locks_accounted nat 0 1 (after sched_swap_waits).1
    (after sched_swap_waits).2 0 (mkCurrent (RWMutex.mk 1 RWMutex.WPending) 0)
    (after_reachable sched_swap_waits (mk_is_Some _ _ eq_refl)) eq_refl)).
Defined.

(** X6 — in a reachable configuration a thread that calls [Reader()] and
    is not disturbed gets, within three actions, a Reader on the live record
    with the published value; [Done] on it then gives the Writer back
    exactly as it was before the call. *)
Theorem Reader_Done_round_trip (T : Type) (r0 w0 : T) (w : Writer T)
    (ts : list (Task T)) (k : nat)
    (Hreach : reachable r0 w0 (w, ts)) :
  ∃ (w1 : Writer T) (r : Reader T),
    run (3 + k) w Writer_Reader = Some (w1, Reader_ret r) ∧
    Reader_mu r = current_ptr w ∧ Reader_done r = false ∧
    published w = Some (Reader_v r) ∧
    Reader_Get w1 r = (w1, r, Ok (Reader_v r)) ∧
    Reader_Done w1 r
      = (w, mkReader (Reader_mu r) true (Reader_v r), Ok tt).
Proof.
  destruct (live_free w ts (reachable_Inv _ _ _ Hreach)) as (rec & Hl & Hf).
  exists (rlocked w rec), (mkReader (current_ptr w) false (v rec)).
  split; [by apply run_Reader|]. split; [done|]. split; [done|].
  split; [unfold published; by rewrite Hl|]. split; [done|].
  by apply Done_rlocked.
Qed.

Lemma Reader_Done_round_trip_witness :
  ∃ w1 r, run 3 (after sched_swap_waits).1 Writer_Reader = Some (w1, Reader_ret r) ∧
          Reader_mu r = 1.
Proof.
  destruct (Reader_Done_round_trip nat 0 1 (after sched_swap_waits).1
              (after sched_swap_waits).2 0
              (after_reachable sched_swap_waits (mk_is_Some _ _ eq_refl)))
    as (w1 & r & H1 & H2 & _).
  exists w1, r. split; assumption.
Defined.

Section SwapAlone.
Context {T : Type}.
Implicit Types (w : Writer T) (t u : Task T) (ts : list (Task T)).

Lemma run_Swap_Unlock w o k :
  unsyncWriterCheck w = true →
  run (1 + k) w (Swap_Unlock o) = Some (set_guard w false, Swap_ret o).
Proof.
  intros Hg. simpl. unfold guard_leave. rewrite Hg. simpl. by apply run_final.
Qed.

Lemma run_Swap_absorb w o rec k :
  unsyncWriterCheck w = true → heap w !! o = Some rec →
  run (2 + k) w (Swap_absorb o)
    = Some (set_guard (set_writerValue w (v rec)) false, Swap_ret o).
Proof.
  intros Hg Hrec. change (2 + k) with (S (1 + k)).
  cbn [run final step_task]. rewrite Hrec.
  by rewrite run_Swap_Unlock.
Qed.

Lemma run_Swap_RWUnlock w o rec k :
  unsyncWriterCheck w = true → heap w !! o = Some rec →
  RWMutex.writer (rw rec) = RWMutex.WHeld →
  ∃ w', run (3 + k) w (Swap_RWUnlock o) = Some (w', Swap_ret o) ∧
        unsyncWriterCheck w' = false ∧ current_ptr w' = current_ptr w ∧
        writerValue w' = v rec.
Proof.
  intros Hg Hrec Hw. change (3 + k) with (S (2 + k)).
  cbn [run final step_task]. unfold on_rw, RWMutex.Unlock. rewrite Hrec, Hw.
  cbn [mbind option_bind].
  erewrite run_Swap_absorb; [|done|].
  2:{ simpl. apply list_lookup_insert_eq. by eapply lookup_lt_Some. }
  eexists. split; [done|]. done.
Qed.

Lemma run_Swap_wait w o rec k :
  unsyncWriterCheck w = true → heap w !! o = Some rec →
  RWMutex.writer (rw rec) = RWMutex.WPending →
  RWMutex.readerCount (rw rec) = 0 →
  ∃ w', run (4 + k) w (Swap_wait o) = Some (w', Swap_ret o) ∧
        unsyncWriterCheck w' = false ∧ current_ptr w' = current_ptr w ∧
        writerValue w' = v rec.
Proof.
  intros Hg Hrec Hw Hn. change (4 + k) with (S (3 + k)).
  cbn [run final step_task]. unfold on_rw, RWMutex.Lock_acquire.
  rewrite Hrec, Hw, Hn. cbn [mbind option_bind].
  set (rec1 := mkCurrent (RWMutex.mk 0 RWMutex.WHeld) (v rec)).
  destruct (run_Swap_RWUnlock (set_heap w (<[o := rec1]> (heap w))) o rec1 k)
    as (w' & Hrun & Hg' & Hp & Hv); [done| |done|].
  { simpl. apply list_lookup_insert_eq. by eapply lookup_lt_Some. }
  exists w'. done.
Qed.

Lemma run_Swap_Lock w o rec k :
  unsyncWriterCheck w = true → heap w !! o = Some rec →
  RWMutex.writer (rw rec) = RWMutex.WFree →
  RWMutex.readerCount (rw rec) = 0 →
  ∃ w', run (5 + k) w (Swap_Lock o) = Some (w', Swap_ret o) ∧
        unsyncWriterCheck w' = false ∧ current_ptr w' = current_ptr w ∧
        writerValue w' = v rec.
Proof.
  intros Hg Hrec Hw Hn. change (5 + k) with (S (4 + k)).
  cbn [run final step_task]. unfold on_rw, RWMutex.Lock_announce.
  rewrite Hrec, Hw. cbn [mbind option_bind].
  set (rec1 := mkCurrent
         (RWMutex.mk (RWMutex.readerCount (rw rec)) RWMutex.WPending) (v rec)).
  destruct (run_Swap_wait (set_heap w (<[o := rec1]> (heap w))) o rec1 k)
    as (w' & Hrun & Hg' & Hp & Hv); [done| |done|done|].
  { simpl. apply list_lookup_insert_eq. by eapply lookup_lt_Some. }
  exists w'. done.
Qed.

Lemma run_more fuel k w t w' t' :
  run fuel w t = Some (w', t') → run (fuel + k) w t = Some (w', t').
Proof.
  revert w t. induction fuel as [|fuel IH]; intros w t; simpl.
  - destruct (final t) eqn:Hf; [|done]. intros [= <- <-]. by apply run_final.
  - destruct (final t); [done|].
    destruct (step_task w t) as [[w1 t1]|]; [|done]. apply IH.
Qed.
End SwapAlone.

Section ManySwaps.
Context {T : Type}.
Implicit Types (w : Writer T).

Lemma Swaps_spec n w rec :
  quiet w → live w = Some rec →
  ∃ w', Swaps n w = Some w' ∧ quiet w' ∧
        length (heap w') = length (heap w) + n ∧
        published w' = Some (if Nat.even n then v rec else writerValue w) ∧
        writerValue w' = (if Nat.even n then writerValue w else v rec).
Proof.
  revert w rec. induction n as [|n IH]; intros w rec Hq Hl.
  - exists w. simpl. rewrite Nat.add_0_r.
    split; [done|]. split; [done|]. split; [done|].
    split; [|done]. unfold published. by rewrite Hl.
  - destruct Hq as [Hg (rec' & Hl' & Hz)].
    rewrite Hl in Hl'. injection Hl' as <-.
    assert (Hl1 : live (swapped w (v rec))
                  = Some (mkCurrent RWMutex.zero (writerValue w))).
    { unfold live, swapped. simpl. by rewrite lookup_app_r, Nat.sub_diag by lia. }
    destruct (IH (swapped w (v rec)) _ (quiet_swapped w (v rec)) Hl1)
      as (w' & Hs & Hq' & Hlen & Hp & Hv).
    exists w'. simpl Swaps. unfold call. change 8 with (7 + 1).
    rewrite (run_Swap w rec 1 Hg Hl Hz).
    split; [done|]. split; [done|].
    simpl in Hlen, Hp, Hv. rewrite length_app in Hlen. simpl in Hlen.
    rewrite Nat.even_succ, <- Nat.negb_even.
    split; [lia|]. by destruct (Nat.even n).
Qed.
End ManySwaps.

(** X8 — [n] calls of [Swap] in a row on a Writer at rest: all return,
    each allocates one record, and the two values change places each time,
    so after an even number the published and the writer-side value are
    the ones at the start and after an odd number they are exchanged. *)
Theorem Swaps_exchange (T : Type) (w : Writer T) (rec : current T) (n : nat)
    (Hrest : quiet w)
    (Hlive : live w = Some rec) :
  ∃ w' : Writer T,
    Swaps n w = Some w' ∧ quiet w' ∧
    length (heap w') = length (heap w) + n ∧
    published w' = Some (if Nat.even n then v rec else writerValue w) ∧
    writerValue w' = (if Nat.even n then writerValue w else v rec).
Proof. by apply Swaps_spec. Qed.

Lemma Swaps_exchange_witness :
  ∃ w', Swaps 2 (New 1 2) = Some w' ∧ published w' = Some 1 ∧ writerValue w' = 2.
Proof.
  destruct (Swaps_exchange nat (New 1 2) (mkCurrent RWMutex.zero 1) 2
              (quiet_New 1 2) eq_refl) as (w' & Hs & _ & _ & Hp & Hv).
  exists w'. split; [exact Hs|]. split; [exact Hp | exact Hv].
Defined.

Section Stable.
Context {T : Type}.
Implicit Types (w : Writer T) (t : Task T) (ts : list (Task T)).

Lemma step_value_stable w t w' t' g x :
  step_task w t = Some (w', t') →
  v <$> heap w !! g = Some x → v <$> heap w' !! g = Some x.
Proof.
  intros Hst Hx.
  assert (Hrw : ∀ c op w1, on_rw w c op = inr (Some w1) →
            v <$> heap w1 !! g = Some x).
  { intros c op w1 (rec & m & Hrec & _ & ->)%on_rw_Some. simpl.
    by rewrite (lookup_v_insert _ _ _ _ _ Hrec). }
  destruct t; simpl in Hst; unfold guard_enter, guard_leave in Hst;
    repeat case_match; simplify_eq; simpl; eauto.
  destruct (heap w !! g) as [rec|] eqn:Hrec; [|done].
  by rewrite (lookup_app_l_Some _ _ _ _ Hrec).
Qed.

Lemma action_stable (c c' : Config T) a g x :
  Inv c → do_action a c = Some c' →
  current_ptr c.1 ≤ current_ptr c'.1 ∧
  (v <$> heap c.1 !! g = Some x → v <$> heap c'.1 !! g = Some x).
Proof.
  destruct c as [w ts]. intros HI.
  pose proof (inv_live _ HI) as Hlive. simpl in Hlive.
  destruct a as [t|i|i|i]; simpl.
  - destruct (is_entry t); [|done]. by intros [= <-].
  - destruct (ts !! i) as [t|] eqn:Hi; [|done].
    destruct (step_task w t) as [[w1 t1]|] eqn:Hst; [|done].
    intros [= <-]. simpl. split; [|by eapply step_value_stable].
    assert (t = Swap_publish ∨ t ≠ Swap_publish) as [->|Hnp]
      by (destruct t; (by left) || (by right)).
    + simpl in Hst. injection Hst as <- <-. simpl. lia.
    + by rewrite (step_current_ptr _ _ _ _ Hst Hnp).
  - destruct (ts !! i) as [[]|] eqn:Hi; try done.
    unfold Reader_Get. by destruct (Reader_done r); intros [= <-].
  - destruct (ts !! i) as [[]|] eqn:Hi; try done.
    pose proof (Done_current_ptr w r) as Hptr.
    destruct (Reader_Done w r) as [[w1 r1] res] eqn:HD. simpl in Hptr.
    intros [= <-]. simpl. rewrite Hptr. split; [done|].
    unfold Reader_Done in HD.
    destruct (Reader_done r); [by injection HD as <- <- <-|].
    destruct (on_rw w (Reader_mu r) RWMutex.RUnlock) as [|[w2|]] eqn:E;
      injection HD as <- <- <-; try done.
    apply on_rw_Some in E as (rec & m & Hrec & _ & ->). simpl.
    by rewrite (lookup_v_insert _ _ _ _ _ Hrec).
Qed.
End Stable.

(** X10 — the package never changes or drops the value of a record once
    it is allocated, and the live reference only moves on: along every
    schedule, from a reachable configuration, each record keeps its value
    and the live reference does not go back; a Reader's snapshot is the
    value of its record also after any number of [Swap]s. *)
Theorem records_stable (T : Type) (r0 w0 : T) (acts : list (Action T))
    (c c' : Config T)
    (Hreach : reachable r0 w0 c)
    (Hexec : exec acts c = Some c') :
  current_ptr c.1 ≤ current_ptr c'.1 ∧
  (∀ g x, v <$> heap c.1 !! g = Some x → v <$> heap c'.1 !! g = Some x) ∧
  (∀ i r, c'.2 !! i = Some (Reader_ret r) →
     v <$> heap c'.1 !! Reader_mu r = Some (Reader_v r)).
Proof.
  assert (Hreach' : reachable r0 w0 c') by (by eapply exec_reachable).
  split; [|split].
  - revert c Hreach Hexec. induction acts as [|a acts IH]; intros c Hreach; simpl.
    + by intros [= <-].
    + destruct (do_action a c) as [c1|] eqn:Ha; [|done]. intros Hexec.
      pose proof (proj1 (action_stable c c1 a 0 r0 (reachable_Inv _ _ _ Hreach) Ha)).
      pose proof (IH c1 (reach_action _ _ _ _ _ Hreach Ha) Hexec). lia.
  - revert c Hreach Hexec. induction acts as [|a acts IH]; intros c Hreach; simpl.
    + by intros [= <-].
    + destruct (do_action a c) as [c1|] eqn:Ha; [|done]. intros Hexec g x Hx.
      apply (IH c1 (reach_action _ _ _ _ _ Hreach Ha) Hexec).
      by apply (action_stable c c1 a g x (reachable_Inv _ _ _ Hreach) Ha).
  - intros i r Hi.
    exact (proj1 (Forall_lookup _ _)
             (inv_snapshot _ (reachable_Inv _ _ _ Hreach')) i _ Hi).
Qed.

Lemma records_stable_witness :
  v <$> heap (after sched_late_retry).1 !! 0 = Some 0.
Proof.
  exact (proj1 (proj2 (records_stable nat 0 1 sched_late_retry
    (New 0 1, []) (after sched_late_retry) (reach_New 0 1) eq_refl))
    0 0 eq_refl).
Defined.

(** X11 — a [Swap] that waits is never stuck for good by the package
    itself: in a reachable configuration, when the waiting [Swap] cannot
    move, another thread holds a read lock on the replaced record, and that
    thread either is inside [Reader()] and can take its next action, or owns
    a Reader that is not released, on which [Done] succeeds. *)
Theorem Swap_blocker_can_move (T : Type) (r0 w0 : T) (w : Writer T)
    (ts : list (Task T)) (i o : nat)
    (Hreach : reachable r0 w0 (w, ts))
    (Hi : ts !! i = Some (Swap_wait o))
    (Hblocked : step_task w (Swap_wait o) = None) :
  ∃ j u,
    j ≠ i ∧ ts !! j = Some u ∧ hold o u = 1 ∧
    ((in_Reader u = true ∧ ∃ w' u', step_task w u = Some (w', u')) ∨
     (∃ r w' r',
        u = Reader_ret r ∧ Reader_mu r = o ∧ Reader_done r = false ∧
        Reader_Done w r = (w', r', Ok tt))).
Proof.
  pose proof (reachable_Inv _ _ _ Hreach) as HI.
  pose proof (inv_live _ HI) as Hlive.
  pose proof (proj1 (Forall_lookup _ _) (inv_refs _ HI) i _ Hi) as Hrt.
  simpl in *. unfold on_rw in Hblocked.
  destruct (heap w !! o) as [rec|] eqn:Hrec; [|done].
  pose proof (inv_writer _ HI _ _ Hrec) as Hw. simpl in Hw.
  rewrite (wmark_own w ts i _ o HI Hi eq_refl) in Hw. simpl in Hw.
  rewrite decide_True in Hw by done.
  pose proof (inv_readers _ HI _ _ Hrec) as Hr. simpl in Hr.
  unfold RWMutex.Lock_acquire in Hblocked.
  destruct (RWMutex.writer (rw rec)); simpl in Hw; try lia.
  destruct (RWMutex.readerCount (rw rec)) as [|n] eqn:Hn; [done|].
  destruct (sum_pos (hold o) ts) as (u & Hu & Hpos); [lia|].
  apply list_elem_of_lookup_1 in Hu as [j Hj].
  exists j, u.
  assert (Hji : j ≠ i).
  { intros ->. rewrite Hi in Hj. injection Hj as <-. simpl in Hpos. lia. }
  split; [done|]. split; [done|].
  destruct u; simpl in Hpos; try lia.
  - case_decide; [subst|lia]. split; [simpl; by rewrite decide_True|].
    left. split; [done|]. simpl. repeat case_match; eauto.
  - case_decide; [subst|lia]. split; [simpl; by rewrite decide_True|].
    left. split; [done|]. simpl. repeat case_match; eauto.
  - destruct (Reader_done r) eqn:Hd; [lia|]. case_decide; [subst|lia].
    split; [simpl; by rewrite Hd, decide_True|]. right.
    pose proof (Done_not_fatal w ts j r HI Hj) as Hnf.
    destruct (Reader_Done w r) as [[w' r'] res] eqn:HD. simpl in Hnf.
    assert (res = Ok tt) as ->.
    { unfold Reader_Done in HD. rewrite Hd in HD.
      repeat case_match; simplify_eq; done. }
    by exists r, w', r'.
Qed.

Lemma Swap_blocker_can_move_witness :
  ∃ j u, j ≠ 1 ∧ (after sched_swap_waits).2 !! j = Some u ∧ hold 0 u = 1.
Proof.
  destruct (Swap_blocker_can_move nat 0 1 (after sched_swap_waits).1
              (after sched_swap_waits).2 1 0
              (after_reachable sched_swap_waits (mk_is_Some _ _ eq_refl))
              eq_refl eq_refl) as (j & u & Hj & Hu & Hh & _).
  exists j, u. split; [exact Hj|]. split; [exact Hu | exact Hh].
Defined.

(** * Writer calls with Readers about *)

Section Sole.
Context {T : Type}.
Implicit Types (w : Writer T) (t u : Task T) (ts : list (Task T)).

(** What every action allowed by a rule preserves holds at the end of a
    schedule that keeps to the rule. *)
Lemma keeps_invariant (allowed : rule T) (P : Config T → Prop) :
  (∀ a c c', P c → allowed a c → do_action a c = Some c' → P c') →
  ∀ acts c c', P c → keeps allowed acts c → exec acts c = Some c' → P c'.
Proof.
  intros Hstep acts. induction acts as [|a acts IH]; intros c c' HP; simpl.
  - by intros _ [= <-].
  - intros [Ha Hk]. destruct (do_action a c) as [c1|] eqn:Hdo; [|done].
    apply IH; [|done]. by eapply Hstep.
Qed.

Lemma same_values_refl w : same_values w w.
Proof. done. Qed.

Lemma on_rw_same_values w c op w' :
  on_rw w c op = inr (Some w') → same_values w w'.
Proof.
  intros (rec & m & Hrec & _ & ->)%on_rw_Some.
  split; [done|]. split; [done|]. intros g. simpl.
  by apply lookup_v_insert.
Qed.

Lemma set_guard_same_values w b : same_values w (set_guard w b).
Proof. done. Qed.

(** The threads that are not inside the locked part of a writer call, and
    the methods of a Reader, leave the values alone. *)
Lemma step_same_values w t w' t' :
  critical t = 0 → step_task w t = Some (w', t') → same_values w w'.
Proof.
  intros Hc Hst.
  destruct t; try done; simpl in Hst;
    unfold guard_enter, Mutex.TryLock in Hst;
    repeat case_match; simplify_eq;
    eauto using same_values_refl, on_rw_same_values, set_guard_same_values.
Qed.

Lemma Get_same_values w (r : Reader T) : same_values w (Reader_Get w r).1.1.
Proof. unfold Reader_Get. by destruct (Reader_done r). Qed.

Lemma Done_same_values w (r : Reader T) : same_values w (Reader_Done w r).1.1.
Proof.
  unfold Reader_Done. destruct (Reader_done r); [done|].
  destruct (on_rw w (Reader_mu r) RWMutex.RUnlock) as [|[w1|]] eqn:E; simpl;
    eauto using same_values_refl, on_rw_same_values.
Qed.

Lemma in_Reader_critical t : in_Reader t = true → critical t = 0.
Proof. by destruct t. Qed.

Lemma published_same_values w w' :
  same_values w w' → published w' = published w.
Proof. intros (_ & Hp & Hv). unfold published, live. by rewrite Hp, Hv. Qed.

Lemma phase_same_values x p y t w w' :
  same_values w w' → phase x p y t w → phase x p y t w'.
Proof.
  intros Hs. pose proof (published_same_values _ _ Hs) as Hpub.
  destruct Hs as (Hw & _ & Hv).
  destruct t; simpl; rewrite ?Hw, ?Hpub, ?Hv; done.
Qed.

(** The call's own actions. *)
Lemma phase_step x p y t w w' t' :
  phase x p y t w → step_task w t = Some (w', t') → phase x p y t' w'.
Proof.
  intros Hph Hst.
  destruct t; simpl in Hph, Hst;
    unfold guard_enter, guard_leave, Mutex.TryLock, Mutex.Unlock in Hst;
    repeat case_match; simplify_eq; simpl; try done;
    try (by destruct_and?; eauto);
    try match goal with
        | H : on_rw _ _ _ = inr (Some _) |- _ =>
            let Hs := fresh in
            let Hpub := fresh in
            pose proof (on_rw_same_values _ _ _ _ H) as Hs;
            pose proof (published_same_values _ _ Hs) as Hpub;
            destruct Hs as (Hw & _ & Hv); rewrite ?Hw, ?Hpub, ?Hv;
            by destruct_and?
        end.
  - (* Swap_publish *)
    destruct Hph as [Hx Hp]. split; [done|]. split.
    + unfold published, live. simpl.
      rewrite lookup_app_r, Nat.sub_diag by lia. simpl. by rewrite Hx.
    + unfold published, live in Hp.
      destruct (heap w !! current_ptr w) as [rec|] eqn:Hrec; [|done].
      by rewrite (lookup_app_l_Some _ _ _ _ Hrec).
  - (* Swap_absorb *)
    destruct Hph as (Hx & Hp & Ho).
    simpl in Ho. by injection Ho as <-.
  - (* Reader_reload *)
    destruct Hph as [Hx Hp]. split; [|done].
    unfold published, live in Hp. simplify_option_eq. done.
Qed.

Lemma phase_after_Get x p y w (r : Reader T) :
  phase x p y (Reader_ret r) w →
  phase x p y (after_call (Reader_Get w r).1.2 (Reader_Get w r).2)
    (Reader_Get w r).1.1.
Proof. unfold Reader_Get. by destruct (Reader_done r). Qed.

Lemma phase_after_Done x p y w (r : Reader T) :
  phase x p y (Reader_ret r) w →
  phase x p y (after_call (Reader_Done w r).1.2 (Reader_Done w r).2)
    (Reader_Done w r).1.1.
Proof.
  intros Hph. pose proof (Done_same_values w r) as Hs.
  unfold Reader_Done in *. destruct (Reader_done r); [done|].
  destruct (on_rw w (Reader_mu r) RWMutex.RUnlock) as [|[w1|]] eqn:E; simpl in *;
    try done.
  by apply (phase_same_values x p y (Reader_ret _) _ _ Hs).
Qed.

(** One action of a schedule that leaves the writer role to thread [i]. *)
Lemma sole_action x p y i a (c c1 : Config T) :
  (∃ t, c.2 !! i = Some t ∧ phase x p y t c.1) →
  sole_writer i a c → do_action a c = Some c1 →
  ∃ t1, c1.2 !! i = Some t1 ∧ phase x p y t1 c1.1.
Proof.
  destruct c as [w ts]. simpl. intros (t & Hi & Hph) Hsole Ha.
  unfold sole_writer in Hsole.
  pose proof (lookup_lt_Some _ _ _ Hi) as Hlt.
  destruct a as [u|j|j|j]; simpl in Ha, Hsole.
  - destruct (is_entry u); [|done]. injection Ha as <-. simpl.
    exists t. split; [by apply lookup_app_l_Some | done].
  - destruct (ts !! j) as [u|] eqn:Hj; [|done].
    destruct (step_task w u) as [[w1 u1]|] eqn:Hst; [|done].
    injection Ha as <-. simpl.
    destruct (decide (j = i)) as [->|Hne].
    + rewrite Hi in Hj. injection Hj as <-.
      exists u1. split; [by apply list_lookup_insert_eq|].
      by eapply phase_step.
    + exists t. split; [by rewrite list_lookup_insert_ne|].
      eapply phase_same_values; [|done].
      eapply step_same_values; [|done]. by apply in_Reader_critical.
  - destruct (ts !! j) as [[]|] eqn:Hj; try done.
    pose proof (Get_same_values w r) as Hs.
    pose proof (phase_after_Get x p y w r) as Hown.
    destruct (Reader_Get w r) as [[w1 r1] res]. injection Ha as <-. simpl in *.
    destruct (decide (j = i)) as [->|Hne].
    + rewrite Hi in Hj. injection Hj as ->.
      eexists. split; [by apply list_lookup_insert_eq | by apply Hown].
    + exists t. split; [by rewrite list_lookup_insert_ne|].
      by eapply phase_same_values.
  - destruct (ts !! j) as [[]|] eqn:Hj; try done.
    pose proof (Done_same_values w r) as Hs.
    pose proof (phase_after_Done x p y w r) as Hown.
    destruct (Reader_Done w r) as [[w1 r1] res]. injection Ha as <-. simpl in *.
    destruct (decide (j = i)) as [->|Hne].
    + rewrite Hi in Hj. injection Hj as ->.
      eexists. split; [by apply list_lookup_insert_eq | by apply Hown].
    + exists t. split; [by rewrite list_lookup_insert_ne|].
      by eapply phase_same_values.
Qed.

Lemma sole_phase x p y i acts (c c' : Config T) t :
  c.2 !! i = Some t → phase x p y t c.1 →
  keeps (sole_writer i) acts c → exec acts c = Some c' →
  ∃ t', c'.2 !! i = Some t' ∧ phase x p y t' c'.1.
Proof.
  intros Hi Hph Hk Hex.
  apply (keeps_invariant (sole_writer i)
           (λ c, ∃ t, c.2 !! i = Some t ∧ phase x p y t c.1)
           (sole_action x p y i) acts c c'); eauto.
Qed.

(** What each call does when it is the only one in the writer role. *)
Lemma sole_Set i acts (c c' : Config T) p y previous :
  published c.1 = Some p →
  c.2 !! i = Some (Writer_Set y) →
  keeps (sole_writer i) acts c → exec acts c = Some c' →
  c'.2 !! i = Some (Set_ret previous) →
  previous = writerValue c.1 ∧ writerValue c'.1 = y ∧ published c'.1 = Some p.
Proof.
  intros Hp Hi Hk Hex Hi'.
  destruct (sole_phase (writerValue c.1) p y i acts c c' _ Hi)
    as (t' & Ht' & Hph); [done|done|done|].
  rewrite Hi' in Ht'. injection Ht' as <-. exact Hph.
Qed.

Lemma sole_Get i acts (c c' : Config T) p z :
  published c.1 = Some p →
  c.2 !! i = Some Writer_Get →
  keeps (sole_writer i) acts c → exec acts c = Some c' →
  c'.2 !! i = Some (Get_ret z) →
  z = writerValue c.1 ∧ writerValue c'.1 = writerValue c.1 ∧
  published c'.1 = Some p.
Proof.
  intros Hp Hi Hk Hex Hi'.
  destruct (sole_phase (writerValue c.1) p (writerValue c.1) i acts c c' _ Hi)
    as (t' & Ht' & Hph); [done|done|done|].
  rewrite Hi' in Ht'. injection Ht' as <-. exact Hph.
Qed.



End Sole.



(** * Before the first [Swap] *)

Section BeforeSwap.
Context {T : Type}.
Implicit Types (w : Writer T) (t u : Task T) (ts : list (Task T)).

Lemma not_Swap_step w t w' t' :
  not_Swap t = true → step_task w t = Some (w', t') →
  not_Swap t' = true ∧ current_ptr w' = current_ptr w.
Proof.
  intros Hn Hst. split.
  - destruct t; try done; simpl in Hst;
      unfold guard_enter, guard_leave in Hst;
      repeat case_match; simplify_eq; done.
  - eapply step_current_ptr; [done|]. by intros ->.
Qed.

(** While no [Swap] is started the first record stays the live one. *)
Lemma before_Swap_action (r0 : T) a (c c' : Config T) :
  (Inv c ∧ current_ptr c.1 = 0 ∧ v <$> heap c.1 !! 0 = Some r0 ∧
   Forall (λ t, not_Swap t = true) c.2) →
  calls not_Swap a c → do_action a c = Some c' →
  Inv c' ∧ current_ptr c'.1 = 0 ∧ v <$> heap c'.1 !! 0 = Some r0 ∧
  Forall (λ t, not_Swap t = true) c'.2.
Proof.
  intros (HI & Hptr & Hv & Hts) Hok Ha.
  split; [by eapply Inv_action|].
  destruct c as [w ts]. simpl in *.
  destruct a as [t|i|i|i]; simpl in Ha, Hok.
  - destruct (is_entry t); [|done]. injection Ha as <-. simpl.
    split; [done|]. split; [done|]. apply Forall_app. split; [done|].
    by apply Forall_singleton.
  - destruct (ts !! i) as [t|] eqn:Hi; [|done].
    destruct (step_task w t) as [[w1 t1]|] eqn:Hst; [|done].
    injection Ha as <-. simpl.
    pose proof (proj1 (Forall_lookup _ _) Hts i t Hi) as Ht.
    destruct (not_Swap_step w t w1 t1 Ht Hst) as [Ht1 Hp1].
    split; [congruence|]. split; [by eapply step_value_stable|].
    by apply Forall_insert.
  - destruct (ts !! i) as [[]|] eqn:Hi; try done.
    unfold Reader_Get in Ha.
    destruct (Reader_done r); injection Ha as <-; simpl;
      (split; [done|]; split; [done|]; by apply Forall_insert).
  - destruct (ts !! i) as [[]|] eqn:Hi; try done.
    pose proof (Done_same_values w r) as (_ & Hp1 & Hv1).
    destruct (Reader_Done w r) as [[w1 r1] res]. injection Ha as <-.
    simpl in *. split; [congruence|]. split; [by rewrite Hv1|].
    apply Forall_insert; [done|]. by destruct res.
Qed.

Lemma not_Set_nor_Swap_step w t w' t' z :
  not_Set_nor_Swap t = true → step_task w t = Some (w', t') →
  (∀ y, got t = Some y → y = writerValue w) →
  got t' = Some z → z = writerValue w.
Proof.
  intros Hn Hst Hgot.
  destruct t; try done; simpl in Hst;
    unfold guard_enter, guard_leave in Hst;
    repeat case_match; simplify_eq; simpl; try done.
  - by intros [= <-].
  - intros [= <-]. by apply Hgot.
Qed.

(** While no [Set] and no [Swap] is started the writer-side value is the
    one given to [New], and it is what every [Get] has read. *)
Lemma before_Set_action (w0 : T) a (c c' : Config T) :
  (writerValue c.1 = w0 ∧
   Forall (λ t, not_Set_nor_Swap t = true ∧ ∀ z, got t = Some z → z = w0) c.2) →
  calls not_Set_nor_Swap a c → do_action a c = Some c' →
  writerValue c'.1 = w0 ∧
  Forall (λ t, not_Set_nor_Swap t = true ∧ ∀ z, got t = Some z → z = w0) c'.2.
Proof.
  intros (Hw & Hts) Hok Ha.
  destruct c as [w ts]. simpl in *.
  destruct a as [t|i|i|i]; simpl in Ha, Hok.
  - destruct (is_entry t) eqn:He; [|done]. injection Ha as <-. simpl.
    split; [done|]. apply Forall_app. split; [done|].
    apply Forall_singleton. split; [done|]. by destruct t.
  - destruct (ts !! i) as [t|] eqn:Hi; [|done].
    destruct (step_task w t) as [[w1 t1]|] eqn:Hst; [|done].
    injection Ha as <-. simpl.
    destruct (proj1 (Forall_lookup _ _) Hts i t Hi) as [Ht Hgot].
    assert (Hw1 : writerValue w1 = writerValue w).
    { destruct t; try done; simpl in Hst;
        unfold guard_enter, guard_leave, on_rw in Hst;
        repeat case_match; simplify_option_eq; done. }
    split; [congruence|]. apply Forall_insert; [done|]. split.
    + destruct t; try done; simpl in Hst;
        unfold guard_enter, guard_leave in Hst;
        repeat case_match; simplify_eq; done.
    + intros z Hz. rewrite <- Hw.
      eapply not_Set_nor_Swap_step; [done|done| |done].
      intros y Hy. rewrite Hw. by apply Hgot.
  - destruct (ts !! i) as [[]|] eqn:Hi; try done.
    unfold Reader_Get in Ha.
    destruct (Reader_done r); injection Ha as <-; simpl;
      (split; [done|]; by apply Forall_insert).
  - destruct (ts !! i) as [[]|] eqn:Hi; try done.
    pose proof (Done_same_values w r) as (Hw1 & _ & _).
    destruct (Reader_Done w r) as [[w1 r1] res]. injection Ha as <-.
    simpl in *. split; [congruence|].
    apply Forall_insert; [done|]. by destruct res.
Qed.
End BeforeSwap.

(** C7 — every configuration reached from [New(r0, w0)] by a schedule in
    which no [Swap] is started, whatever calls are in progress and
    whatever Readers are out: the published value is [r0]; every Reader
    carries [r0] and yields it from [Get]; a [Reader()] call left alone
    returns such a Reader.  As long as no [Set] was started either, the
    writer-side value is [w0] and every [Get] that has read it returns
    [w0].  When no writer call is in progress, [Get] returns the
    writer-side value at once, and [Set(x)] the value it replaces, after
    which [Get] returns [x].  A [Set(x)] that is the only writer call in
    progress, with Readers taken, read and released meanwhile, returns the
    writer-side value it found, a [Get] after it returns [x], and the
    published value is [r0] after both. *)
Theorem New_Get_Set_before_Swap (T : Type) (r0 w0 : T)
    (acts : list (Action T)) (c : Config T)
    (Hno_Swap : keeps (calls not_Swap) acts (New r0 w0, []))
    (Hexec : exec acts (New r0 w0, []) = Some c) :
  published c.1 = Some r0 ∧
  (∀ i r, c.2 !! i = Some (Reader_ret r) →
     Reader_v r = r0 ∧
     (Reader_done r = false → Reader_Get c.1 r = (c.1, r, Ok r0))) ∧
  (∀ k, ∃ w' r,
     run (3 + k) c.1 Writer_Reader = Some (w', Reader_ret r) ∧
     Reader_Get w' r = (w', r, Ok r0) ∧
     published w' = Some r0 ∧ writerValue w' = writerValue c.1) ∧
  (keeps (calls not_Set_nor_Swap) acts (New r0 w0, []) →
     writerValue c.1 = w0 ∧
     ∀ i z, c.2 !! i = Some (Get_ret z) → z = w0) ∧
  (unsyncWriterCheck c.1 = false → ∀ k,
     run (3 + k) c.1 Writer_Get = Some (c.1, Get_ret (writerValue c.1)) ∧
     ∀ x, ∃ w1,
       run (4 + k) c.1 (Writer_Set x) = Some (w1, Set_ret (writerValue c.1)) ∧
       published w1 = Some r0 ∧
       run (3 + k) w1 Writer_Get = Some (w1, Get_ret x)) ∧
  (∀ (s g : nat) (acts1 acts2 : list (Action T)) (c1 c2 : Config T)
     (x previous y : T),
     c.2 !! s = Some (Writer_Set x) →
     keeps (sole_writer s) acts1 c → exec acts1 c = Some c1 →
     c1.2 !! s = Some (Set_ret previous) →
     c1.2 !! g = Some Writer_Get →
     keeps (sole_writer g) acts2 c1 → exec acts2 c1 = Some c2 →
     c2.2 !! g = Some (Get_ret y) →
     previous = writerValue c.1 ∧ y = x ∧
     published c1.1 = Some r0 ∧ published c2.1 = Some r0).
Proof.
  pose proof (keeps_invariant (calls not_Swap) _ (before_Swap_action r0)
                acts (New r0 w0, []) c) as Hinv.
  destruct Hinv as (HI & Hptr & Hv & Hts); [|done|done|].
  { split; [apply Inv_New|]. split; [done|]. split; [done|]. apply Forall_nil_2. }
  assert (Hpub : published c.1 = Some r0).
  { unfold published, live. by rewrite Hptr. }
  split; [done|]. split; [|split; [|split; [|split]]].
  - intros i r Hi.
    pose proof (proj1 (Forall_lookup _ _) (inv_refs _ HI) i _ Hi) as Hr.
    pose proof (proj1 (Forall_lookup _ _) (inv_snapshot _ HI) i _ Hi) as Hs.
    simpl in Hr, Hs. rewrite Hptr in Hr.
    replace (Reader_mu r) with 0 in Hs by lia. rewrite Hv in Hs.
    injection Hs as Hs. split; [done|].
    intros Hd. unfold Reader_Get. by rewrite Hd, <- Hs.
  - intros k. destruct c as [w ts].
    destruct (live_free w ts HI) as (rec & Hl & Hfree). simpl in *.
    assert (v rec = r0) as <-.
    { unfold published in Hpub. rewrite Hl in Hpub. by injection Hpub. }
    eexists _, _. split; [by apply run_Reader|]. split; [done|].
    split; [|done].
    unfold published, live, rlocked. simpl.
    rewrite list_lookup_insert_eq; [done|]. by eapply lookup_lt_Some.
  - intros Hno_Set.
    pose proof (keeps_invariant (calls not_Set_nor_Swap) _ (before_Set_action w0)
                  acts (New r0 w0, []) c) as [Hw Hgot]; [|done|done|].
    { split; [done|]. apply Forall_nil_2. }
    split; [done|]. intros i z Hi.
    by apply (proj2 (proj1 (Forall_lookup _ _) Hgot i _ Hi)).
  - intros Hg k. split; [by apply run_Get|].
    intros x. eexists. split; [by apply run_Set|]. split; [done|].
    by rewrite run_Get.
  - intros s g acts1 acts2 c1 c2 x previous y Hs Hk1 He1 Hs' Hg Hk2 He2 Hg'.
    destruct (sole_Set s acts1 c c1 r0 x previous Hpub Hs Hk1 He1 Hs')
      as (Hprev & Hx & Hp1).
    destruct (sole_Get g acts2 c1 c2 r0 y Hp1 Hg Hk2 He2 Hg')
      as (Hy & _ & Hp2).
    split; [done|]. split; [congruence|]. done.
Qed.

(** A Reader is out and has been read while [Set(5)] ran. *)
Lemma New_Get_Set_before_Swap_witness :
  published (after sched_before_Swap).1 = Some 0 ∧
  (after sched_before_Swap).2 !! 0 = Some (Reader_ret (mkReader 0 false 0)) ∧
  (after sched_before_Swap).2 !! 1 = Some (Get_ret 1) ∧
  (then_do (after sched_before_Swap) sched_Set_5).2 !! 2 = Some (Set_ret 1) ∧
  (then_do (then_do (after sched_before_Swap) sched_Set_5) sched_Get_5).2 !! 3
    = Some (Get_ret 5) ∧
  published (then_do (then_do (after sched_before_Swap) sched_Set_5)
               sched_Get_5).1 = Some 0.
Proof.
  destruct (New_Get_Set_before_Swap nat 0 1 sched_before_Swap
              (after sched_before_Swap)
              ltac:(vm_compute; tauto) eq_refl)
    as (Hpub & _ & _ & _ & _ & HSet).
  destruct (HSet 2 3 sched_Set_5 sched_Get_5
              (then_do (after sched_before_Swap) sched_Set_5)
              (then_do (then_do (after sched_before_Swap) sched_Set_5) sched_Get_5)
              5 1 5 eq_refl ltac:(vm_compute; tauto) eq_refl eq_refl eq_refl
              ltac:(vm_compute; tauto) eq_refl eq_refl) as (_ & _ & _ & Hp2).
  split; [exact Hpub|]. split; [reflexivity|]. split; [reflexivity|].
  split; [reflexivity|]. split; [reflexivity|]. exact Hp2.
Defined.

(** * The two roles of a value *)

Section Roles.
Context {T : Type}.
Implicit Types (w : Writer T) (t u : Task T) (ts : list (Task T)).

Lemma exchanging_critical t o : exchanging t = Some o → critical t = 1.
Proof. by destruct t. Qed.

(** While a thread is inside a writer call the others are not. *)
Lemma others_idle w ts j t i u :
  Inv (w, ts) → ts !! j = Some t → critical t = 1 →
  i ≠ j → ts !! i = Some u → critical u = 0.
Proof.
  intros HI Hj Hc Hne Hi.
  destruct (critical_alone w ts j t HI Hj Hc) as [_ Hz].
  assert (Hu : (<[j := Crashed]> ts) !! i = Some u)
    by (by rewrite list_lookup_insert_ne).
  pose proof (sum_elem critical _ _ (list_elem_of_lookup_2 _ _ _ Hu)). lia.
Qed.

Lemma disjoint_same_values w w' :
  same_values w w' → disjoint w → disjoint w'.
Proof.
  intros Hs. unfold disjoint.
  rewrite (published_same_values _ _ Hs). destruct Hs as (-> & _). done.
Qed.

(** An action that changes no value and lets no thread into or out of
    the exchange keeps the roles. *)
Lemma roles_same_values (c c' : Config T) :
  same_values c.1 c'.1 →
  (∀ i t' o, c'.2 !! i = Some t' → exchanging t' = Some o →
     ∃ t, c.2 !! i = Some t ∧ exchanging t = Some o) →
  (∀ i t o, c.2 !! i = Some t → exchanging t = Some o →
     ∃ t', c'.2 !! i = Some t' ∧ exchanging t' = Some o) →
  roles c → roles c'.
Proof.
  intros Hs Hback Hforth [H1 H2]. split.
  - intros Hnone. apply (disjoint_same_values _ _ Hs), H1.
    intros i t Hi. destruct (exchanging t) as [o|] eqn:He; [|done].
    destruct (Hforth i t o Hi He) as (t' & Hi' & He').
    rewrite (Hnone i t' Hi') in He'. done.
  - intros i t' o Hi' He'. destruct (Hback i t' o Hi' He') as (t & Hi & He).
    destruct (H2 i t o Hi He) as (Hp & q & Hq & Hne).
    rewrite (published_same_values _ _ Hs).
    destruct Hs as (Hw & _ & Hv). rewrite Hw, Hv. eauto.
Qed.

Lemma exchanging_step w t w' t' :
  critical t = 0 → step_task w t = Some (w', t') → exchanging t' = None.
Proof.
  intros Hc Hst.
  destruct t; try done; simpl in Hst;
    unfold guard_enter in Hst; repeat case_match; simplify_eq; done.
Qed.

(** One action of a careful schedule. *)
Lemma roles_action a (c c' : Config T) :
  (Inv c ∧ roles c) → careful a c → do_action a c = Some c' →
  Inv c' ∧ roles c'.
Proof.
  intros [HI HR] Hcare Ha. split; [by eapply Inv_action|].
  destruct c as [w ts].
  destruct a as [t|j|j|j]; simpl in Ha, Hcare.
  - (* a call starts *)
    destruct (is_entry t) eqn:He; [|done]. injection Ha as <-.
    apply (roles_same_values (w, ts)); [done| | |done]; simpl.
    + intros i t' o Hi He'.
      apply lookup_app_Some in Hi as [Hi|[_ Hi]]; [eauto|].
      apply list_lookup_singleton_Some in Hi as [_ <-]. by destruct t.
    + intros i u o Hi He'. exists u. split; [by apply lookup_app_l_Some|done].
  - destruct (ts !! j) as [t|] eqn:Hj; [|done].
    destruct (step_task w t) as [[w1 t1]|] eqn:Hst; [|done].
    injection Ha as <-.
    pose proof (step_no_crash w ts j t w1 t1 HI Hj Hst) as Hnc.
    pose proof (lookup_lt_Some _ _ _ Hj) as Hlt.
    destruct (decide (critical t = 0)) as [Hc|Hc].
    + (* outside the writer calls *)
      apply (roles_same_values (w, ts)); [by eapply step_same_values| | |done];
        simpl.
      * intros i t' o Hi He'. destruct (decide (i = j)) as [->|Hne].
        -- rewrite list_lookup_insert_eq in Hi by done. injection Hi as <-.
           by rewrite (exchanging_step _ _ _ _ Hc Hst) in He'.
        -- rewrite list_lookup_insert_ne in Hi by done. eauto.
      * intros i u o Hi He'. destruct (decide (i = j)) as [->|Hne].
        -- rewrite Hj in Hi. injection Hi as <-.
           apply exchanging_critical in He'. lia.
        -- exists u. by rewrite list_lookup_insert_ne.
    + (* inside a writer call: the only thread that is *)
      assert (Hc1 : critical t = 1) by (destruct t; simpl in *; lia).
      assert (Hidle : ∀ i u, i ≠ j → ts !! i = Some u → exchanging u = None).
      { intros i u Hne Hi. pose proof (others_idle w ts j t i u HI Hj Hc1 Hne Hi).
        destruct (exchanging u) eqn:He; [|done].
        apply exchanging_critical in He. lia. }
      destruct HR as [H1 H2]. simpl in H1, H2.
      assert (Hout : exchanging t = None → exchanging t1 = None →
                same_values w w1 → roles (w1, <[j := t1]> ts)).
      { intros He He1 Hs. split; simpl.
        - intros _. apply (disjoint_same_values _ _ Hs), H1.
          intros i u Hi. destruct (decide (i = j)) as [->|Hne]; [|by eauto].
          rewrite Hj in Hi. by injection Hi as <-.
        - intros i u o Hi Hu. destruct (decide (i = j)) as [->|Hne].
          + rewrite list_lookup_insert_eq in Hi by done. injection Hi as <-.
            congruence.
          + rewrite list_lookup_insert_ne in Hi by done.
            rewrite (Hidle i u Hne Hi) in Hu. done. }
      assert (Hin : ∀ o, exchanging t = Some o → exchanging t1 = Some o →
                same_values w w1 → roles (w1, <[j := t1]> ts)).
      { intros o He He1 Hs.
        apply (roles_same_values (w, ts)); [done| | |done]; simpl.
        - intros i t' o' Hi He'. destruct (decide (i = j)) as [->|Hne].
          + rewrite list_lookup_insert_eq in Hi by done. injection Hi as <-.
            exists t. split; [done | congruence].
          + rewrite list_lookup_insert_ne in Hi by done. eauto.
        - intros i u o' Hi He'. destruct (decide (i = j)) as [->|Hne].
          + rewrite Hj in Hi. injection Hi as <-.
            exists t1. split; [by apply list_lookup_insert_eq | congruence].
          + exists u. by rewrite list_lookup_insert_ne. }
      destruct t; try done; simpl in Hst;
        unfold guard_leave in Hst; repeat case_match; simplify_eq;
        try (by apply Hout);
        try (by eapply Hin; eauto using on_rw_same_values).
      * (* Set_store *)
        simpl in Hcare. split; simpl.
        -- intros _. done.
        -- intros i u o Hi Hu. destruct (decide (i = j)) as [->|Hne].
           ++ rewrite list_lookup_insert_eq in Hi by done. by injection Hi as <-.
           ++ rewrite list_lookup_insert_ne in Hi by done.
              rewrite (Hidle i u Hne Hi) in Hu. done.
      * (* Swap_publish *)
        assert (Hd : disjoint w).
        { apply H1. intros i u Hi. destruct (decide (i = j)) as [->|Hne]; [|by eauto].
          rewrite Hj in Hi. by injection Hi as <-. }
        pose proof (inv_live _ HI) as Hlive. simpl in Hlive.
        destruct (heap w !! current_ptr w) as [rec|] eqn:Hrec.
        2:{ apply lookup_ge_None in Hrec. lia. }
        assert (Hpub : published
                  {| heap := heap w ++ [mkCurrent RWMutex.zero (writerValue w)];
                     current_ptr := length (heap w);
                     unsyncWriterCheck := unsyncWriterCheck w;
                     writerValue := writerValue w |} = Some (writerValue w)).
        { unfold published, live. simpl.
          by rewrite lookup_app_r, Nat.sub_diag by lia. }
        split; simpl.
        -- intros Hnone.
           specialize (Hnone j _ (list_lookup_insert_eq _ _ _ Hlt)). done.
        -- intros i u o Hi Hu. destruct (decide (i = j)) as [->|Hne].
           ++ rewrite list_lookup_insert_eq in Hi by done. injection Hi as <-.
              injection Hu as <-. split; [done|].
              exists (v rec). rewrite (lookup_app_l_Some _ _ _ _ Hrec).
              split; [done|]. intros Heq. apply Hd.
              unfold published, live. rewrite Hrec. simpl. by rewrite Heq.
           ++ rewrite list_lookup_insert_ne in Hi by done.
              rewrite (Hidle i u Hne Hi) in Hu. done.
      * (* Swap_absorb *)
        destruct (H2 j _ oldReader Hj eq_refl) as (Hp & q & Hq & Hne).
        match goal with H : heap w !! oldReader = Some _ |- _ =>
          rewrite H in Hq end.
        simpl in Hq. injection Hq as Hq. split; simpl.
        -- intros _. unfold disjoint. simpl.
           change (published (set_writerValue w (v c))) with (published w).
           rewrite Hp, Hq. congruence.
        -- intros i u o Hi Hu. destruct (decide (i = j)) as [->|Hne'].
           ++ rewrite list_lookup_insert_eq in Hi by done. by injection Hi as <-.
           ++ rewrite list_lookup_insert_ne in Hi by done.
              rewrite (Hidle i u Hne' Hi) in Hu. done.
  - (* Get on a Reader *)
    destruct (ts !! j) as [[]|] eqn:Hj; try done.
    pose proof (lookup_lt_Some _ _ _ Hj) as Hlt.
    pose proof (Get_same_values w r) as Hs.
    destruct (Reader_Get w r) as [[w1 r1] res]. injection Ha as <-.
    simpl in Hs.
    apply (roles_same_values (w, ts)); [done| | |done]; simpl.
    + intros i t' o Hi He'. destruct (decide (i = j)) as [->|Hne].
      * rewrite list_lookup_insert_eq in Hi by done. injection Hi as <-.
        by destruct res.
      * rewrite list_lookup_insert_ne in Hi by done. eauto.
    + intros i u o Hi He'. destruct (decide (i = j)) as [->|Hne].
      * rewrite Hj in Hi. by injection Hi as <-.
      * exists u. by rewrite list_lookup_insert_ne.
  - (* Done on a Reader *)
    destruct (ts !! j) as [[]|] eqn:Hj; try done.
    pose proof (lookup_lt_Some _ _ _ Hj) as Hlt.
    pose proof (Done_same_values w r) as Hs.
    destruct (Reader_Done w r) as [[w1 r1] res]. injection Ha as <-.
    simpl in Hs.
    apply (roles_same_values (w, ts)); [done| | |done]; simpl.
    + intros i t' o Hi He'. destruct (decide (i = j)) as [->|Hne].
      * rewrite list_lookup_insert_eq in Hi by done. injection Hi as <-.
        by destruct res.
      * rewrite list_lookup_insert_ne in Hi by done. eauto.
    + intros i u o Hi He'. destruct (decide (i = j)) as [->|Hne].
      * rewrite Hj in Hi. by injection Hi as <-.
      * exists u. by rewrite list_lookup_insert_ne.
Qed.

(** Which actions touch the two values. *)
Lemma action_moves a (c c' : Config T) :
  Inv c → do_action a c = Some c' → moves a c c'.
Proof.
  destruct c as [w ts]. intros HI. unfold moves.
  pose proof (inv_live _ HI) as Hlive. simpl in Hlive.
  destruct a as [t|j|j|j]; simpl.
  - destruct (is_entry t); [|done]. intros [= <-]. by left.
  - destruct (ts !! j) as [t|] eqn:Hj; [|done].
    destruct (step_task w t) as [[w1 t1]|] eqn:Hst; [|done].
    intros [= <-]. simpl.
    pose proof (lookup_lt_Some _ _ _ Hj) as Hlt.
    destruct (decide (critical t = 0)) as [Hc|Hc];
      [left; by eapply step_same_values|].
    destruct t; try done; simpl in Hst;
      unfold guard_leave in Hst; repeat case_match; simplify_eq;
      try (left; by eauto using same_values_refl, on_rw_same_values,
                                 set_guard_same_values).
    + right. exists j. split; [done|]. right. left. eauto.
    + right. exists j. split; [done|]. left.
      split; [done|]. split; [by apply list_lookup_insert_eq|].
      split; [|split; [done|]].
      * unfold published, live. simpl.
        by rewrite lookup_app_r, Nat.sub_diag by lia.
      * simpl. unfold published, live.
        destruct (heap w !! current_ptr w) as [rec|] eqn:Hrec.
        -- by rewrite (lookup_app_l_Some _ _ _ _ Hrec).
        -- apply lookup_ge_None in Hrec. lia.
    + right. exists j. split; [done|]. right. right.
      exists oldReader. split; [done|]. split; [|done].
      match goal with H : heap w !! oldReader = Some _ |- _ => by rewrite H end.
  - destruct (ts !! j) as [[]|] eqn:Hj; try done.
    pose proof (Get_same_values w r) as Hs.
    destruct (Reader_Get w r) as [[w1 r1] res]. intros [= <-]. by left.
  - destruct (ts !! j) as [[]|] eqn:Hj; try done.
    pose proof (Done_same_values w r) as Hs.
    destruct (Reader_Done w r) as [[w1 r1] res]. intros [= <-]. by left.
Qed.
End Roles.

(** C8 as it is written fails for [New(x, x)]: the same value is then
    writer-side and published. *)
Lemma New_same_value_not_disjoint : ¬ disjoint (New 7 7).
Proof. intros H. by apply H. Qed.

(** It fails as well once [Set] is given the published value: after
    [New(0, 1)] and [Set(0)], with no call in progress. *)
Example Set_published_not_disjoint :
  (after sched_Set_published).2 = [Set_ret 1] ∧
  ¬ disjoint (after sched_Set_published).1.
Proof. split; [reflexivity|]. intros H. by apply H. Qed.

(** C8, amended — when [New] is given two different values and no [Set]
    stores the value published at that moment, then in every
    configuration the program reaches, whatever calls are in progress and
    whatever Readers are out: if no thread is inside the exchange of a
    [Swap] (between its publication and its last assignment), and so in
    particular if no thread is inside [Swap] at all, the writer-side value
    is not the published one; while a thread is inside the exchange, the
    one value is in both roles and the value of the replaced record is
    another one.  Every action either changes neither value, or is the
    publication of a [Swap], which makes the writer-side value the
    published one and keeps the value published before in the replaced
    record, or is the store of a [Set], which changes the writer-side value
    only, or is the last assignment of a [Swap], which makes the value of
    the replaced record the writer-side one. *)
Theorem roles_disjoint (T : Type) (r0 w0 : T) (acts : list (Action T))
    (c : Config T)
    (Hnew : r0 ≠ w0)
    (Hcareful : keeps careful acts (New r0 w0, []))
    (Hexec : exec acts (New r0 w0, []) = Some c) :
  ((∀ i t, c.2 !! i = Some t → exchanging t = None) → disjoint c.1) ∧
  ((∀ i t, c.2 !! i = Some t → in_Swap t = false) → disjoint c.1) ∧
  (∀ i t o, c.2 !! i = Some t → exchanging t = Some o →
     published c.1 = Some (writerValue c.1) ∧
     ∃ q, v <$> heap c.1 !! o = Some q ∧ q ≠ writerValue c.1) ∧
  (∀ a c', do_action a c = Some c' → moves a c c').
Proof.
  destruct (keeps_invariant careful _ roles_action acts (New r0 w0, []) c)
    as [HI [H1 H2]]; [|done|done|].
  { split; [apply Inv_New|]. split; simpl.
    - intros _. unfold disjoint, published, live. simpl. congruence.
    - intros i t o Hi. done. }
  split; [done|]. split; [|split; [done|]].
  - intros Hout. apply H1. intros i t Hi.
    specialize (Hout i t Hi). by destruct t.
  - intros a c' Ha. by apply action_moves.
Qed.

(** A Reader is out and [Set(5)] has just stored. *)
Lemma roles_disjoint_witness :
  (after sched_roles).2
    = [Reader_ret (mkReader 0 false 0); Get_ret 1; Set_Unlock 1] ∧
  disjoint (after sched_roles).1.
Proof.
  split; [reflexivity|].
  apply (proj1 (roles_disjoint nat 0 1 sched_roles (after sched_roles)
                  ltac:(discriminate)
                  ltac:(vm_compute; repeat split; discriminate)
                  eq_refl)).
  intros [|[|[|i]]] t Hi; vm_compute in Hi; simplify_eq; reflexivity.
Defined.

(** * The end of [Swap] *)

Section Absorbed.
Context {T : Type}.
Implicit Types (w : Writer T) (t u : Task T) (ts : list (Task T)).

Lemma absorbed_same_values (c c' : Config T) :
  same_values c.1 c'.1 →
  (∀ i o, c'.2 !! i = Some (Swap_Unlock o) → c.2 !! i = Some (Swap_Unlock o)) →
  absorbed c → absorbed c'.
Proof.
  intros (Hw & _ & Hv) Hback Hab i o Hi.
  rewrite Hw, Hv. by apply (Hab i), Hback.
Qed.

Lemma absorbed_action a (c c' : Config T) :
  Inv c → absorbed c → do_action a c = Some c' → absorbed c'.
Proof.
  destruct c as [w ts]. intros HI Hab Ha.
  destruct a as [t|j|j|j]; simpl in Ha.
  - destruct (is_entry t) eqn:He; [|done]. injection Ha as <-.
    apply (absorbed_same_values (w, ts)); [done| |done]. simpl.
    intros i o Hi. apply lookup_app_Some in Hi as [Hi|[_ Hi]]; [done|].
    apply list_lookup_singleton_Some in Hi as [_ ->]. done.
  - destruct (ts !! j) as [t|] eqn:Hj; [|done].
    destruct (step_task w t) as [[w1 t1]|] eqn:Hst; [|done].
    injection Ha as <-.
    pose proof (lookup_lt_Some _ _ _ Hj) as Hlt.
    destruct (decide (critical t = 0)) as [Hc|Hc].
    + apply (absorbed_same_values (w, ts)); [by eapply step_same_values| |done].
      simpl. intros i o Hi. destruct (decide (i = j)) as [->|Hne].
      * rewrite list_lookup_insert_eq in Hi by done. injection Hi as ->.
        destruct t; try done; simpl in Hst;
          unfold guard_enter in Hst; repeat case_match; simplify_eq.
      * by rewrite list_lookup_insert_ne in Hi.
    + assert (Hc1 : critical t = 1) by (destruct t; simpl in *; lia).
      intros i o Hi. simpl in Hi |- *.
      destruct (decide (i = j)) as [->|Hne].
      * rewrite list_lookup_insert_eq in Hi by done. injection Hi as ->.
        destruct t; try done; simpl in Hst;
          unfold guard_leave in Hst; repeat case_match; simplify_eq.
        simpl. match goal with H : heap w !! _ = Some _ |- _ => by rewrite H end.
      * rewrite list_lookup_insert_ne in Hi by done.
        pose proof (others_idle w ts j t i _ HI Hj Hc1 Hne Hi). done.
  - destruct (ts !! j) as [[]|] eqn:Hj; try done.
    pose proof (lookup_lt_Some _ _ _ Hj) as Hlt.
    pose proof (Get_same_values w r) as Hs.
    destruct (Reader_Get w r) as [[w1 r1] res]. injection Ha as <-.
    apply (absorbed_same_values (w, ts)); [done| |done]. simpl.
    intros i o Hi. destruct (decide (i = j)) as [->|Hne].
    + rewrite list_lookup_insert_eq in Hi by done. by destruct res.
    + by rewrite list_lookup_insert_ne in Hi.
  - destruct (ts !! j) as [[]|] eqn:Hj; try done.
    pose proof (lookup_lt_Some _ _ _ Hj) as Hlt.
    pose proof (Done_same_values w r) as Hs.
    destruct (Reader_Done w r) as [[w1 r1] res]. injection Ha as <-.
    apply (absorbed_same_values (w, ts)); [done| |done]. simpl.
    intros i o Hi. destruct (decide (i = j)) as [->|Hne].
    + rewrite list_lookup_insert_eq in Hi by done. by destruct res.
    + by rewrite list_lookup_insert_ne in Hi.
Qed.

Lemma reachable_absorbed (r0 w0 : T) c : reachable r0 w0 c → absorbed c.
Proof.
  induction 1 as [|c a c' Hc IH Ha]; [by intros i o Hi|].
  eapply absorbed_action; [by eapply reachable_Inv|done|done].
Qed.
End Absorbed.

(** X7 — in a reachable configuration, a thread inside [Swap] past its
    publication returns within five actions of its own when no other thread
    moves, provided no thread holds a read lock on the record it replaced
    (which matters only as long as it has not locked that record); the guard
    is free then, the live reference is as it was, and the writer-side
    value is the value of the replaced record. *)
Theorem Swap_returns_alone (T : Type) (r0 w0 : T) (w : Writer T)
    (ts : list (Task T)) (i : nat) (t : Task T) (o : nat)
    (Hreach : reachable r0 w0 (w, ts))
    (Hi : ts !! i = Some t)
    (Hold : swap_old t = Some o)
    (Hrun : final t = false)
    (Hfree : drained t = None → ∀ j u, ts !! j = Some u → hold o u = 0) :
  ∃ (w' : Writer T) (rec : current T),
    heap w !! o = Some rec ∧
    run 5 w t = Some (w', Swap_ret o) ∧
    unsyncWriterCheck w' = false ∧ current_ptr w' = current_ptr w ∧
    writerValue w' = v rec.
Proof.
  pose proof (reachable_Inv _ _ _ Hreach) as HI.
  pose proof (reachable_absorbed _ _ _ Hreach) as Hab.
  pose proof (inv_live _ HI) as Hlive.
  pose proof (proj1 (Forall_lookup _ _) (inv_refs _ HI) i t Hi) as Hrt.
  simpl in *.
  assert (Hc : critical t = 1) by (by destruct t).
  destruct (critical_alone w ts i t HI Hi Hc) as [Hg _].
  assert (Ho : o < current_ptr w) by (destruct t; simpl in *; simplify_eq; lia).
  destruct (heap w !! o) as [rec|] eqn:Hrec.
  2:{ apply lookup_ge_None in Hrec. lia. }
  pose proof (inv_writer _ HI _ _ Hrec) as Hw. simpl in Hw.
  rewrite (wmark_own w ts i t o HI Hi Hc) in Hw.
  pose proof (inv_readers _ HI _ _ Hrec) as Hr. simpl in Hr.
  assert (Hn : drained t = None → RWMutex.readerCount (rw rec) = 0).
  { intros Hd. rewrite Hr.
    destruct (decide (0 < sum_list_with (hold o) ts)) as [Hpos|]; [|lia].
    apply sum_pos in Hpos as (u & Hu & Hp).
    apply list_elem_of_lookup_1 in Hu as [j Hj].
    specialize (Hfree Hd j u Hj). lia. }
  destruct t; simpl in Hold; simplify_eq; simpl in Hw, Hn.
  - destruct (run_Swap_Lock w o rec 0 Hg Hrec) as (w' & Hrun' & Hg' & Hp & Hv);
      [by destruct (RWMutex.writer (rw rec)) | by apply Hn|].
    exists w', rec. repeat split; done.
  - rewrite decide_True in Hw by done.
    destruct (run_Swap_wait w o rec 0 Hg Hrec) as (w' & Hrun' & Hg' & Hp & Hv);
      [by destruct (RWMutex.writer (rw rec)) | by apply Hn|].
    exists w', rec. split; [done|].
    split; [exact (run_more 4 1 _ _ _ _ Hrun')|]. done.
  - rewrite decide_True in Hw by done.
    destruct (run_Swap_RWUnlock w o rec 0 Hg Hrec) as (w' & Hrun' & Hg' & Hp & Hv);
      [by destruct (RWMutex.writer (rw rec))|].
    exists w', rec. split; [done|].
    split; [exact (run_more 3 2 _ _ _ _ Hrun')|]. done.
  - eexists _, rec. split; [done|].
    split; [exact (run_more 2 3 _ _ _ _ (run_Swap_absorb w o rec 0 Hg Hrec))|].
    done.
  - eexists _, rec. split; [done|].
    split; [exact (run_more 1 4 _ _ _ _ (run_Swap_Unlock w o 0 Hg))|].
    split; [done|]. split; [done|].
    specialize (Hab i o Hi). simpl in Hab. rewrite Hrec in Hab.
    simpl in Hab. by injection Hab as ->.
Qed.

Lemma Swap_returns_alone_witness :
  (∃ w' rec, heap (after sched_swap_alone).1 !! 0 = Some rec ∧
             run 5 (after sched_swap_alone).1 (Swap_Lock 0) = Some (w', Swap_ret 0) ∧
             writerValue w' = v rec) ∧
  (∃ w' rec, heap (after sched_swap_Unlock).1 !! 0 = Some rec ∧
             run 5 (after sched_swap_Unlock).1 (Swap_Unlock 0)
               = Some (w', Swap_ret 0) ∧
             writerValue w' = v rec).
Proof.
  split.
  - destruct (Swap_returns_alone nat 0 1 (after sched_swap_alone).1
                (after sched_swap_alone).2 0 (Swap_Lock 0) 0
                (after_reachable sched_swap_alone (mk_is_Some _ _ eq_refl))
                eq_refl eq_refl eq_refl)
      as (w' & rec & Hrec & Hrun & _ & _ & Hv).
    + intros _ [|[|j]] u Hj; vm_compute in Hj; simplify_eq; reflexivity.
    + exists w', rec. split; [exact Hrec|]. split; [exact Hrun|]. exact Hv.
  - destruct (Swap_returns_alone nat 0 1 (after sched_swap_Unlock).1
                (after sched_swap_Unlock).2 0 (Swap_Unlock 0) 0
                (after_reachable sched_swap_Unlock (mk_is_Some _ _ eq_refl))
                eq_refl eq_refl eq_refl)
      as (w' & rec & Hrec & Hrun & _ & _ & Hv).
    + intros Hd. discriminate Hd.
    + exists w', rec. split; [exact Hrec|]. split; [exact Hrun|]. exact Hv.
Defined.

(** * Slices *)

Section Slices.
Context {A : Type}.
Variable zero : A.
Variable grow : nat → nat → nat.
Hypothesis grow_enough : ∀ c n, n ≤ grow c n.
Implicit Types (m : list (list A)) (s t : slice) (xs : list A).

Lemma separate_sym s t : separate s t → separate t s.
Proof. unfold separate. intros [?|[?|?]]; auto. Qed.

Lemma lookup_elems m s a i :
  m !! s_arr s = Some a →
  elems m s !! i = if decide (i < s_len s) then a !! (s_off s + i) else None.
Proof.
  intros Ha. unfold elems. rewrite Ha. simpl. case_decide.
  - by rewrite lookup_take_lt, lookup_drop.
  - apply lookup_take_ge. lia.
Qed.

Lemma length_elems m s : wf m s → length (elems m s) = s_len s.
Proof.
  intros (a & Ha & Hcap & Hlen). unfold elems. rewrite Ha. simpl.
  rewrite length_take, length_drop. lia.
Qed.

Lemma wf_reslice0 m s : wf m s → wf m (reslice0 s).
Proof. intros (a & Ha & Hcap & Hlen). exists a. simpl. repeat split; [done|done|lia]. Qed.

Lemma elems_reslice0 m s : elems m (reslice0 s) = [].
Proof. done. Qed.

(** [append] returns a slice that holds the elements of [s] and then
    [xs], and leaves alone every slice whose room does not overlap with
    that of [s]. *)
Lemma append_spec m s xs :
  wf m s →
  wf (append zero grow m s xs).1 (append zero grow m s xs).2 ∧
  elems (append zero grow m s xs).1 (append zero grow m s xs).2
    = elems m s ++ xs ∧
  ∀ t, wf m t → separate s t →
    wf (append zero grow m s xs).1 t ∧
    elems (append zero grow m s xs).1 t = elems m t ∧
    separate (append zero grow m s xs).2 t.
Proof using grow_enough.
  intros Hs. pose proof (length_elems m s Hs) as Hlen.
  destruct Hs as (a & Ha & Hcap & Hle).
  pose proof (lookup_lt_Some _ _ _ Ha) as Hlt.
  unfold append. rewrite Ha. simpl.
  destruct (decide (s_len s + length xs ≤ s_cap s)) as [Hfit|Hno]; simpl.
  - (* in place *)
    set (a' := list_inserts (s_off s + s_len s) xs a).
    assert (Ha' : <[s_arr s := a']> m !! s_arr s = Some a')
      by (by apply list_lookup_insert_eq).
    assert (Hla : length a' = length a) by apply length_inserts.
    split; [|split].
    + exists a'. simpl. split; [done|]. split; lia.
    + apply list_eq. intros i.
      rewrite (lookup_elems _ (mkSlice _ _ _ _) a' i Ha'). simpl.
      destruct (decide (i < s_len s)) as [Hi|Hi].
      * rewrite decide_True by lia. rewrite lookup_app_l by lia.
        rewrite (lookup_elems m s a i Ha), decide_True by done.
        apply list_lookup_inserts_lt. lia.
      * rewrite lookup_app_r by lia. rewrite Hlen.
        case_decide as Hi'.
        -- unfold a'. rewrite list_lookup_inserts by lia. f_equal. lia.
        -- symmetry. apply lookup_ge_None. lia.
    + intros t (b & Hb & Hcapt & Hlet) Hsep.
      destruct (decide (s_arr s = s_arr t)) as [Heq|Hne].
      * rewrite <- Heq in Hb. rewrite Ha in Hb. injection Hb as <-.
        assert (Hb' : <[s_arr s := a']> m !! s_arr t = Some a')
          by (by rewrite <- Heq).
        split; [exists a'; split; [done|]; split; lia|].
        split; [|done].
        apply list_eq. intros i.
        rewrite (lookup_elems _ t a' i Hb').
        rewrite (lookup_elems m t a i) by (by rewrite <- Heq).
        case_decide; [|done].
        destruct Hsep as [?|[?|?]]; [done| |].
        -- apply list_lookup_inserts_ge. lia.
        -- apply list_lookup_inserts_lt. lia.
      * assert (Hb' : <[s_arr s := a']> m !! s_arr t = Some b)
          by (by rewrite list_lookup_insert_ne).
        split; [by exists b|]. split; [|by left].
        unfold elems. by rewrite Hb', Hb.
  - (* a new array *)
    set (n := s_len s + length xs).
    set (a' := elems m s ++ xs ++ replicate (grow (s_cap s) n - n) zero).
    assert (Ha' : (m ++ [a']) !! length m = Some a').
    { by rewrite lookup_app_r, Nat.sub_diag by lia. }
    pose proof (grow_enough (s_cap s) n) as Hg.
    split; [|split].
    + exists a'. simpl. split; [done|]. split; [|done].
      unfold a'. rewrite !length_app, length_replicate, Hlen. lia.
    + unfold elems at 1. simpl. rewrite Ha'. simpl. unfold a'.
      rewrite app_assoc. apply take_app_length'.
      rewrite length_app, Hlen. done.
    + intros t (b & Hb & Hcapt & Hlet) _.
      pose proof (lookup_lt_Some _ _ _ Hb) as Hltb.
      assert (Hb' : (m ++ [a']) !! s_arr t = Some b)
        by (by apply lookup_app_l_Some).
      split; [by exists b|]. split; [|left; simpl; lia].
      unfold elems. by rewrite Hb', Hb.
Qed.
End Slices.

(** * The writer loop of the test *)

Section Rounds.
Context {A : Type}.
Variable zero : A.
Variable grow : nat → nat → nat.
Hypothesis grow_enough : ∀ c n, n ≤ grow c n.
Implicit Types (m : list (list A)) (w : Writer slice) (s t p : slice)
  (xs : list A).

Lemma write_one_spec x m w :
  unsyncWriterCheck w = false →
  write_one zero grow x (m, w)
    = Some ((append zero grow m (writerValue w) [x]).1,
            set_writerValue w (append zero grow m (writerValue w) [x]).2).
Proof.
  intros Hg. unfold write_one, call. cbn [fst snd].
  change 8 with (3 + 5). rewrite (run_Get w 5 Hg).
  change (3 + 5) with (4 + 4). by rewrite (run_Set w _ 4 Hg).
Qed.

(** The writes of a round: the writer-side slice grows by them, in its
    own room or in a new array, and the published slice is not touched. *)
Lemma accumulate_spec xs m w p :
  unsyncWriterCheck w = false →
  wf m p → wf m (writerValue w) → separate (writerValue w) p →
  ∃ m' s,
    accumulate zero grow xs (m, w) = Some (m', set_writerValue w s) ∧
    wf m' p ∧ wf m' s ∧ separate s p ∧
    elems m' s = elems m (writerValue w) ++ xs ∧
    elems m' p = elems m p.
Proof using grow_enough.
  revert m w. induction xs as [|x xs IH]; intros m w Hg Hp Hw Hsep.
  - exists m, (writerValue w). simpl. rewrite app_nil_r.
    split; [by destruct w|]. done.
  - destruct (append_spec zero grow grow_enough m (writerValue w) [x] Hw)
      as (Hw1 & He1 & Hframe).
    destruct (Hframe p Hp Hsep) as (Hp1 & Hep1 & Hsep1).
    set (ms := append zero grow m (writerValue w) [x]) in *.
    destruct (IH ms.1 (set_writerValue w ms.2) Hg Hp1 Hw1 Hsep1)
      as (m' & s & Hacc & Hp' & Hs' & Hsep' & He' & Hep').
    exists m', s. simpl accumulate. rewrite write_one_spec by done.
    fold ms. split; [exact Hacc|].
    split; [done|]. split; [done|]. split; [done|].
    simpl in He'. rewrite He', He1, <- app_assoc. split; [done|].
    by rewrite Hep'.
Qed.

(** One round. *)
Lemma round_spec xs m w p :
  quiet w → published w = Some p →
  wf m p → wf m (writerValue w) → separate (writerValue w) p →
  ∃ m' w' p',
    round zero grow xs (m, w) = Some (m', w') ∧ quiet w' ∧
    published w' = Some p' ∧
    wf m' p' ∧ wf m' (writerValue w') ∧ separate (writerValue w') p' ∧
    elems m' p' = elems m (writerValue w) ++ xs ∧
    elems m' (writerValue w') = elems m (writerValue w) ++ xs.
Proof using grow_enough.
  intros [Hg (rec & Hl & Hz)] Hpub Hp Hw Hsep.
  assert (Hrec : v rec = p).
  { unfold published in Hpub. rewrite Hl in Hpub. by injection Hpub. }
  destruct (accumulate_spec xs m w p Hg Hp Hw Hsep)
    as (m1 & s & Hacc & Hp1 & Hs1 & Hsep1 & Hes & Hep).
  set (w1 := set_writerValue w s).
  set (w2 := swapped w1 (v rec)).
  set (rec2 := mkCurrent RWMutex.zero s).
  assert (Hl2 : live w2 = Some rec2).
  { unfold live, w2, swapped. simpl. by rewrite lookup_app_r, Nat.sub_diag by lia. }
  destruct (append_spec zero grow grow_enough m1 (reslice0 p) (elems m1 s)
              (wf_reslice0 m1 p Hp1)) as (Hc & Hec & Hframe).
  destruct (Hframe s Hs1) as (Hs2 & Hes2 & Hsep2).
  { apply separate_sym in Hsep1. exact Hsep1. }
  set (ms := append zero grow m1 (reslice0 p) (elems m1 s)) in *.
  exists ms.1, (set_writerValue w2 ms.2), s.
  split; [|split; [|split; [|split; [|split; [|split; [|split]]]]]].
  - unfold round. rewrite Hacc. fold w1.
    unfold call. change 8 with (7 + 1).
    rewrite (run_Swap w1 rec 1 Hg Hl Hz). fold w2.
    change (7 + 1) with (3 + 5).
    rewrite (run_Reader w2 rec2 5 Hl2 eq_refl).
    rewrite (run_Get (rlocked w2 rec2) 5 eq_refl).
    unfold Reader_Get. simpl Reader_done. cbv iota.
    simpl Reader_v. simpl writerValue. rewrite Hrec. fold ms.
    change (3 + 5) with (4 + 4).
    rewrite (run_Set (rlocked w2 rec2) ms.2 4 eq_refl).
    change (set_writerValue (rlocked w2 rec2) ms.2)
      with (rlocked (set_writerValue w2 ms.2) rec2).
    pose proof (Done_rlocked (set_writerValue w2 ms.2) rec2 Hl2 eq_refl) as HD.
    change (current_ptr (set_writerValue w2 ms.2)) with (current_ptr w2) in HD.
    by rewrite HD.
  - apply quiet_set_writerValue, quiet_swapped.
  - change (published (swapped w1 (v rec)) = Some s).
    by rewrite published_swapped.
  - done.
  - done.
  - done.
  - by rewrite Hes2.
  - simpl. rewrite Hec. simpl. done.
Qed.

Lemma rounds_spec xs (xss : list (list A)) m w p :
  quiet w → published w = Some p →
  wf m p → wf m (writerValue w) → separate (writerValue w) p →
  ∃ m' w' p',
    rounds zero grow (xs :: xss) (m, w) = Some (m', w') ∧ quiet w' ∧
    published w' = Some p' ∧
    wf m' p' ∧ wf m' (writerValue w') ∧ separate (writerValue w') p' ∧
    elems m' p' = elems m (writerValue w) ++ concat (xs :: xss) ∧
    elems m' (writerValue w') = elems m (writerValue w) ++ concat (xs :: xss).
Proof using grow_enough.
  revert xs m w p. induction xss as [|ys xss IH]; intros xs m w p Hq Hpub Hp Hw Hsep.
  - destruct (round_spec xs m w p Hq Hpub Hp Hw Hsep)
      as (m' & w' & p' & Hr & Hq' & Hpub' & Hp' & Hw' & Hsep' & He & Hev).
    exists m', w', p'. simpl. rewrite Hr, app_nil_r. done.
  - destruct (round_spec xs m w p Hq Hpub Hp Hw Hsep)
      as (m1 & w1 & p1 & Hr & Hq1 & Hpub1 & Hp1 & Hw1 & Hsep1 & _ & Hev1).
    destruct (IH ys m1 w1 p1 Hq1 Hpub1 Hp1 Hw1 Hsep1)
      as (m' & w' & p' & Hrs & Hq' & Hpub' & Hp' & Hw' & Hsep' & He & Hev).
    exists m', w', p'. rewrite Hev1, <- app_assoc in He, Hev.
    split; [|done]. simpl rounds at 1. rewrite Hr. exact Hrs.
Qed.
End Rounds.

(** C6 as it is written fails when the two parts given to [New] share an
    array: with [arr := []int64{1, 2, 3, 0}] and [New(arr[0:2], arr[1:3])],
    one round that writes [9] ends with [[3 9 9]] published, where
    [[2 3 9]] is expected: the copy back into the writer side runs over the
    published slice. *)
Lemma rounds_on_shared_array :
  (∃ m' w',
     rounds 0%Z grow_double [[9%Z]] (shared_mem, New shared_reader shared_writer)
       = Some (m', w') ∧
     elems m' <$> published w' = Some [3%Z; 9%Z; 9%Z]) ∧
  ¬ keeps_writes 0%Z grow_double shared_mem shared_reader shared_writer [[9%Z]].
Proof.
  split.
  - eexists _, _. split; reflexivity.
  - intros (m' & w' & p & Hr & Hp & He).
    vm_compute in Hr. injection Hr as <- <-.
    vm_compute in Hp. injection Hp as <-.
    vm_compute in He. discriminate He.
Qed.

(** C6, amended — when the two slices given to [New] lie within their
    arrays and their rooms do not overlap, the loop of the test run for
    [N >= 1] rounds, round [k] appending the writes [xs_k] one [Set] at a
    time, then [Swap], then the copy of the Reader's snapshot into the
    writer side: every round returns, and at the end the published slice
    and the writer-side slice both hold the elements of [w0] followed by
    the writes of the rounds 1 to [N], each once and in order; the two
    slices still do not overlap.  This holds whatever capacity [append]
    chooses when it reallocates, as long as it is enough. *)
Theorem rounds_keep_writes (A : Type) (zero : A) (grow : nat → nat → nat)
    (m : list (list A)) (r0 w0 : slice) (xs : list A) (xss : list (list A))
    (Hgrow : ∀ c n, n ≤ grow c n)
    (Hr0 : wf m r0)
    (Hw0 : wf m w0)
    (Hseparate : separate r0 w0) :
  keeps_writes zero grow m r0 w0 (xs :: xss) ∧
  ∃ (m' : list (list A)) (w' : Writer slice) (p : slice),
    rounds zero grow (xs :: xss) (m, New r0 w0) = Some (m', w') ∧
    published w' = Some p ∧
    elems m' p = elems m w0 ++ concat (xs :: xss) ∧
    elems m' (writerValue w') = elems m w0 ++ concat (xs :: xss) ∧
    separate p (writerValue w') ∧
    unsyncWriterCheck w' = false.
Proof.
  destruct (rounds_spec zero grow Hgrow xs xss m (New r0 w0) r0
              (quiet_New r0 w0) eq_refl Hr0 Hw0 (separate_sym _ _ Hseparate))
    as (m' & w' & p & Hr & [Hg _] & Hpub & _ & _ & Hsep & He & Hev).
  split; [by exists m', w', p|].
  exists m', w', p. repeat split; try done. by apply separate_sym.
Qed.

(** The first three rounds of the test, which starts from
    [New([42], [-1])] and writes [0], [1], [2]. *)
Lemma rounds_keep_writes_witness :
  ∃ m' w' p,
    rounds 0%Z grow_double [[0%Z]; [1%Z]; [2%Z]]
      (test_mem, New test_reader test_writer) = Some (m', w') ∧
    published w' = Some p ∧
    elems m' p = [(-1)%Z; 0%Z; 1%Z; 2%Z] ∧
    elems m' (writerValue w') = [(-1)%Z; 0%Z; 1%Z; 2%Z].
Proof.
  destruct (rounds_keep_writes Z 0%Z grow_double test_mem test_reader
              test_writer [0%Z] [[1%Z]; [2%Z]])
    as (_ & m' & w' & p & Hr & Hp & He & Hev & _).
  - intros c n. unfold grow_double. lia.
  - exists [42%Z]. vm_compute. repeat split; lia.
  - exists [(-1)%Z]. vm_compute. repeat split; lia.
  - left. vm_compute. lia.
  - exists m', w', p. split; [exact Hr|]. split; [exact Hp|].
    split; [exact He | exact Hev].
Defined.

Lemma concat_singletons {A B : Type} (f : A → B) (l : list A) :
  concat ((λ i, [f i]) <$> l) = f <$> l.
Proof. induction l as [|a l IH]; csimpl; [done | by rewrite IH]. Qed.

(** X9 — the writer loop of [TestReaderWriter] run for [n >= 1] rounds
    from [New([42], [-1])], whatever capacity [append] chooses when it
    reallocates: it ends, and the writer-side slice and the published slice
    both are [-1, 0, ..., n-1]; so for every [-1 <= i < n] the index [i+1]
    that the last loop of the test uses on [w.Get()] and on [r.Get()] is in
    range and holds [i] already. *)
Theorem TestReaderWriter_rounds (grow : nat → nat → nat) (n : nat)
    (Hgrow : ∀ c k, k ≤ grow c k)
    (Hn : 1 ≤ n) :
  ∃ (m : list (list Z)) (w : Writer slice) (p : slice),
    rounds 0%Z grow (test_writes n) (test_mem, New test_reader test_writer)
      = Some (m, w) ∧
    published w = Some p ∧
    elems m (writerValue w) = (-1)%Z :: (Z.of_nat <$> seq 0 n) ∧
    elems m p = (-1)%Z :: (Z.of_nat <$> seq 0 n) ∧
    ∀ k, k ≤ n →
      elems m (writerValue w) !! k = Some (Z.of_nat k - 1)%Z ∧
      elems m p !! k = Some (Z.of_nat k - 1)%Z.
Proof.
  destruct n as [|n]; [lia|].
  destruct (rounds_spec 0%Z grow Hgrow [0%Z] ((λ i, [Z.of_nat i]) <$> seq 1 n)
              test_mem (New test_reader test_writer) test_reader
              (quiet_New _ _) eq_refl)
    as (m & w & p & Hr & _ & Hpub & _ & _ & _ & Hp & Hv).
  { exists [42%Z]. vm_compute. repeat split; lia. }
  { exists [(-1)%Z]. vm_compute. repeat split; lia. }
  { left. vm_compute. lia. }
  change ([0%Z] :: ((λ i, [Z.of_nat i]) <$> seq 1 n)) with (test_writes (S n)) in *.
  unfold test_writes in Hp, Hv. rewrite concat_singletons in Hp, Hv.
  change (elems test_mem (writerValue (New test_reader test_writer)))
    with [(-1)%Z] in Hp, Hv.
  exists m, w, p. split; [exact Hr|]. split; [exact Hpub|].
  split; [exact Hv|]. split; [exact Hp|].
  assert (Hlook : ∀ k, k ≤ S n →
    ((-1)%Z :: (Z.of_nat <$> seq 0 (S n))) !! k = Some (Z.of_nat k - 1)%Z).
  { intros [|j] Hk; [done|]. change ((?x :: ?l) !! S j) with (l !! j).
    rewrite list_lookup_fmap, lookup_seq_lt by lia. simpl. f_equal. lia. }
  intros k Hk. rewrite Hv, Hp. split; by apply Hlook.
Qed.

Lemma TestReaderWriter_rounds_witness :
  ∃ (m : list (list Z)) (w : Writer slice),
    rounds 0%Z grow_double (test_writes 100)
      (test_mem, New test_reader test_writer) = Some (m, w) ∧
    elems m (writerValue w) !! 100 = Some 99%Z.
Proof.
  destruct (TestReaderWriter_rounds grow_double 100) as (m & w & p & Hr & _ & _ & _ & Hk).
  - intros c k. unfold grow_double. lia.
  - lia.
  - exists m, w. split; [exact Hr|]. exact (proj1 (Hk 100 ltac:(lia))).
Defined.
